(** * rash: the storage engine and its query compiler

    A shallow embedding of [rash/database.py] (connection handling, the
    get-or-create resolver, the record importer, the search compiler), of
    the dispatch part of [rash/export.py] and of the environment snapshot
    and session id of [rash/record.py], together with the properties the
    specification states about them and further properties of the code. *)

From Stdlib Require Import ZArith Ascii String List Lia.
From stdpp Require Import base option list gmap strings sorting pretty.

Local Open Scope Z_scope.


(** ** Python strings *)

Module Py.

(** [sep.join(items)] *)
Definition join (sep : string) (items : list string) : string :=
  String.concat sep items.

(** [s.startswith(p)] *)
Definition startswith (p s : string) : bool := String.prefix p s.

(** [s.endswith("/")], the only suffix test of the sources *)
Fixpoint ends_with_slash (s : string) : bool :=
  match s with
  | EmptyString => false
  | String c EmptyString => Ascii.eqb c "/"%char
  | String _ s' => ends_with_slash s'
  end.

(** [s[:-1]] *)
Fixpoint drop_last (s : string) : string :=
  match s with
  | EmptyString => EmptyString
  | String _ EmptyString => EmptyString
  | String c s' => String c (drop_last s')
  end.

(** [s.split("/")] *)
Fixpoint split_slash (s : string) : list string :=
  match s with
  | EmptyString => [EmptyString]
  | String c s' =>
      if Ascii.eqb c "/"%char then EmptyString :: split_slash s'
      else match split_slash s' with
           | [] => [String c EmptyString]
           | h :: t => String c h :: t
           end
  end.

(** [item * n] for strings *)
Fixpoint times (n : nat) (item : string) : string :=
  match n with
  | O => EmptyString
  | S n' => item +:+ times n' item
  end.

(** [x or y] for strings *)
Definition or_else (x y : string) : string :=
  match x with EmptyString => y | _ => x end.

End Py.

(** ** [posixpath]: the part of [os.path] that [normalize_directory] calls *)

Module PosixPath.

Definition sep : string := "/".

Definition isabs (path : string) : bool := Py.startswith sep path.

(** [join(a, b)] with one tail argument *)
Definition join (a b : string) : string :=
  if Py.startswith sep b then b
  else match a with
       | EmptyString => b
       | _ => if Py.ends_with_slash a then a +:+ b else a +:+ sep +:+ b
       end.

(** POSIX keeps exactly two leading slashes apart from one or three. *)
Definition initial_slashes (path : string) : nat :=
  if Py.startswith "/" path then
    if Py.startswith "//" path && negb (Py.startswith "///" path)
    then 2%nat else 1%nat
  else 0%nat.

(** [new_comps[-1] == '..'] guarded by [new_comps] being non-empty *)
Definition last_is_dotdot (new_comps : list string) : bool :=
  match List.last (Some <$> new_comps) None with
  | Some c => String.eqb c ".."
  | None => false
  end.

(** One turn of the loop over the components in [normpath]. *)
Definition normpath_step (slashes : nat) (new_comps : list string)
    (comp : string) : list string :=
  if String.eqb comp "" || String.eqb comp "." then new_comps
  else if negb (String.eqb comp "..")
          || (Nat.eqb slashes 0 && Nat.eqb (length new_comps) 0)
          || last_is_dotdot new_comps
  then new_comps ++ [comp]
  else removelast new_comps.

Definition normpath (path : string) : string :=
  match path with
  | EmptyString => "."
  | _ =>
      let slashes := initial_slashes path in
      let comps := fold_left (normpath_step slashes) (Py.split_slash path) [] in
      Py.or_else (Py.times slashes "/" +:+ Py.join "/" comps) "."
  end.

(** [abspath(path)]; [getcwd] is what [os.getcwd()] returns. *)
Definition abspath (getcwd : string) (path : string) : string :=
  normpath (if isabs path then path else join getcwd path).

End PosixPath.

(** ** [rash/utils/iterutils.py] *)

(** Modelled from the spec: [rash/utils/iterutils.py] is not among the
    sources.  [repeat(item, num)] yields [item] once per accepted pattern
    ("each accepted pattern contributes one ... sub-condition"), and
    [nonempty(iterative)] tells whether a lookup reported anything. *)
Definition repeat {A} (item : A) (num : nat) : list A := replicate num item.

Definition nonempty {A} (iterative : list A) : bool :=
  match iterative with [] => false | _ :: _ => true end.

(** ** Module-level functions of [rash/database.py] *)

Definition concat_expr (operator : string) (conditions : list string)
  : list string :=
  let expr := Py.join (" " +:+ operator +:+ " ") conditions in
  match expr with
  | EmptyString => []
  | _ => ["(" +:+ expr +:+ ")"]
  end.

Definition normalize_directory (getcwd : string) (path : string) : string :=
  let path := PosixPath.abspath getcwd path in
  if Py.ends_with_slash path then Py.drop_last path else path.

(** ** Python values handed to the store as statement parameters *)

Inductive pyval :=
| PNone
| PInt (z : Z)
| PStr (s : string)
| PDatetime (ts : Z)      (* [datetime.utcfromtimestamp(ts)] *)
| PObj.                   (* a list, a dict: no sqlite3 adapter *)

(** ** The search compiler *)

Record search_kwds := {
  limit : Z;
  pattern : list string;
  cwd : list string;
  cwd_glob : list string;
  unique : bool;
}.

Definition keys : list string :=
  ["command"; "cwd"; "terminal"; "start"; "stop"; "exit_code"].

Definition max_index : nat := 3.

(** [template.format(name)] for the two templates of the compiler *)
Inductive template := GlobTemplate | EqTemplate.

Definition format_template (t : template) (name : string) : string :=
  match t with
  | GlobTemplate => "glob(?, " +:+ name +:+ ")"
  | EqTemplate => name +:+ " = ?"
  end.

(** The closure [add_or_match] acting on the pair [(conditions, params)]. *)
Definition add_or_match (t : template) (name : string) (args : list string)
    (acc : list string * list pyval) : list string * list pyval :=
  let '(conditions, params) := acc in
  (conditions ++ concat_expr "OR" (repeat (format_template t name) (length args)),
   params ++ (PStr <$> args)).

Definition select_columns (unique : bool) : list string :=
  let columns := ["CL.command"; "DL.directory"; "TL.terminal";
                  "start_time"; "stop_time"; "exit_code"] in
  if unique
  then alter (fun c => "MAX(" +:+ c +:+ ")") max_index columns
  else columns.

Definition where_clause (conditions : list string) : string :=
  match conditions with
  | [] => ""
  | _ => "WHERE " +:+ Py.join " AND " conditions +:+ " "
  end.

Definition group_by_clause (unique : bool) : string :=
  if unique then "GROUP BY CL.command " else "".

Definition format_select (columns where_ group_by : string) : string :=
  "SELECT " +:+ columns +:+ " " +:+
  "FROM command_history " +:+
  "LEFT JOIN command_list AS CL ON command_id = CL.id " +:+
  "LEFT JOIN directory_list AS DL ON directory_id = DL.id " +:+
  "LEFT JOIN terminal_list AS TL ON terminal_id = TL.id " +:+
  where_ +:+ group_by +:+ " " +:+
  "ORDER BY start_time " +:+
  "LIMIT ?".

Definition _compile_sql_search_command_record (getcwd : string)
    (kwds : search_kwds) : string * list pyval * list string :=
  let acc := ([], []) in
  let acc := add_or_match GlobTemplate "CL.command" (pattern kwds) acc in
  let acc := add_or_match GlobTemplate "DL.directory" (cwd_glob kwds) acc in
  let acc := add_or_match EqTemplate "DL.directory"
               (normalize_directory getcwd <$> cwd kwds) acc in
  let '(conditions, params) := acc in
  let where_ := where_clause conditions in
  let group_by := group_by_clause (unique kwds) in
  let sql := format_select (Py.join ", " (select_columns (unique kwds)))
               where_ group_by in
  (sql, params ++ [PInt (limit kwds)], keys).


(** ** The embedded relational engine, as [sqlite3] presents it *)

Inductive exn :=
| ProgrammingError          (* operation on a closed connection *)
| OperationalError          (* no such table, no such column, table exists *)
| InterfaceError            (* a parameter of a type that cannot be bound *)
| OverflowError             (* an integer or a timestamp out of range *)
| ValueError (msg : string).

Inductive sql_value :=
| VNull
| VInt (z : Z)
| VText (s : string)
| VDatetime (ts : Z).
(* sqlite3 adapts a datetime to its ISO-8601 text; the model keeps the instant
   the text denotes, in epoch seconds. *)

Global Instance sql_value_eq_dec : EqDecision sql_value.
Proof. solve_decision. Defined.

(** Binding one Python value to a statement parameter. *)
Definition bind_param (v : pyval) : exn + sql_value :=
  match v with
  | PNone => inr VNull
  | PInt z =>
      if (- 2 ^ 63 <=? z) && (z <? 2 ^ 63) then inr (VInt z)
      else inl OverflowError
  | PStr s => inr (VText s)
  | PDatetime ts => inr (VDatetime ts)
  | PObj => inl InterfaceError
  end.

Fixpoint bind_params (vs : list pyval) : exn + list sql_value :=
  match vs with
  | [] => inr []
  | v :: vs' =>
      match bind_param v with
      | inl e => inl e
      | inr x =>
          match bind_params vs' with
          | inl e => inl e
          | inr xs => inr (x :: xs)
          end
      end
  end.

(** The SQL operator [=]: [None] is the unknown truth value of a comparison
    with NULL. *)
Definition sql_eq (a b : sql_value) : option bool :=
  match a, b with
  | VNull, _ | _, VNull => None
  | _, _ => Some (bool_decide (a = b))
  end.

Definition is_true (t : option bool) : bool :=
  match t with Some true => true | _ => false end.

(** A row carries its integer primary key [id] and the values of the other
    columns; a column never assigned holds NULL. *)
Record row := { row_id : Z; row_fields : gmap string sql_value }.

Record table := { tbl_columns : list string; tbl_rows : list row }.

Definition column_value (r : row) (c : string) : sql_value :=
  if String.eqb c "id" then VInt (row_id r)
  else default VNull (row_fields r !! c).

Definition has_column (t : table) (c : string) : bool :=
  String.eqb c "id" || bool_decide (c ∈ tbl_columns t).

(** The statements of the storage module leave the key to the engine: a
    column list naming [id] is refused. *)
Definition assignable_column (t : table) (c : string) : bool :=
  negb (String.eqb c "id") && bool_decide (c ∈ tbl_columns t).

(** The key the engine gives to the next inserted row. *)
Definition next_rowid (rows : list row) : Z :=
  foldr Z.max 0 (row_id <$> rows) + 1.

Inductive predicate :=
| Glob (column : string)        (* glob(?, column) *)
| Equals (column : string).     (* column = ? *)

(** The search statement as the engine reads it: the WHERE clause is a
    conjunction of disjunctions, each predicate taking the next parameter, and
    [sel_unique] tells whether the start time is aggregated with MAX and the
    rows grouped by command text. *)
Record select_statement := {
  sel_where : list (list predicate);
  sel_unique : bool;
}.

(** [row_matches columns values r]: the conjunction [c1 = ? AND c2 = ? ...]. *)
Definition row_matches (columns : list string) (values : list sql_value)
    (r : row) : bool :=
  forallb (fun cv => is_true (sql_eq (column_value r cv.1) cv.2))
          (zip columns values).

(** Compiling a statement against the schema: the table and every named
    column must exist, and the column list must not be empty. *)
Definition prepare (s : gmap string table) (tname : string)
    (columns : list string) (ok : table -> string -> bool) : exn + table :=
  match s !! tname with
  | None => inl OperationalError
  | Some t =>
      match columns with
      | [] => inl OperationalError
      | _ => if forallb (ok t) columns then inr t else inl OperationalError
      end
  end.

Definition select_id (t : table) (columns : list string)
    (values : list sql_value) : list Z :=
  row_id <$> List.filter (row_matches columns values) (tbl_rows t).

Definition new_row (t : table) (columns : list string)
    (values : list sql_value) : row :=
  {| row_id := next_rowid (tbl_rows t);
     row_fields := list_to_map (zip columns values) |}.

Definition insert_row (t : table) (columns : list string)
    (values : list sql_value) : table :=
  {| tbl_columns := tbl_columns t;
     tbl_rows := tbl_rows t ++ [new_row t columns values] |}.

(** *** The search statement *)

(** The engine's GLOB matching with the wildcards the specification names:
    [*] stands for any run of characters, [?] for exactly one. *)
Fixpoint glob (pat : string) (text : string) : bool :=
  match pat with
  | EmptyString => match text with EmptyString => true | _ => false end
  | String p pat' =>
      if Ascii.eqb p "*"%char then
        (fix star (t : string) : bool :=
           glob pat' t || match t with
                          | EmptyString => false
                          | String _ t' => star t'
                          end) text
      else
        match text with
        | EmptyString => false
        | String c text' =>
            (Ascii.eqb p "?"%char || Ascii.eqb p c) && glob pat' text'
        end
  end.

(** The SQL function [glob(pattern, value)] on text; NULL in, NULL out. *)
Definition sql_glob (pat value : sql_value) : option bool :=
  match pat, value with
  | VText p, VText v => Some (glob p v)
  | VNull, _ | _, VNull => None
  | _, _ => Some false
  end.

(** The order of ORDER BY and MAX: NULL first, then numbers, then text. *)
Definition sql_rank (v : sql_value) : Z :=
  match v with VNull => 0 | VInt _ => 1 | VText _ => 2 | VDatetime _ => 3 end.

Definition sql_le (a b : sql_value) : bool :=
  match a, b with
  | VInt x, VInt y => x <=? y
  | VText x, VText y => String.leb x y
  | VDatetime x, VDatetime y => x <=? y
  | _, _ => sql_rank a <=? sql_rank b
  end.

(** A row of [command_history] with the rows the three LEFT JOINs attach. *)
Record joined_row := {
  jr_history : row;
  jr_CL : option row;
  jr_DL : option row;
  jr_TL : option row;
}.

Definition dimension_value (d : option row) (c : string) : sql_value :=
  match d with Some r => column_value r c | None => VNull end.

Fixpoint strip_prefix (p s : string) : option string :=
  match p, s with
  | EmptyString, _ => Some s
  | String a p', String b s' => if Ascii.eqb a b then strip_prefix p' s' else None
  | String _ _, EmptyString => None
  end.

(** The value of a column reference such as [CL.command] or [start_time]. *)
Definition joined_value (jr : joined_row) (c : string) : sql_value :=
  match strip_prefix "CL." c with
  | Some n => dimension_value (jr_CL jr) n
  | None =>
      match strip_prefix "DL." c with
      | Some n => dimension_value (jr_DL jr) n
      | None =>
          match strip_prefix "TL." c with
          | Some n => dimension_value (jr_TL jr) n
          | None => column_value (jr_history jr) c
          end
      end
  end.

(** [LEFT JOIN dim ON fk = dim.id]: every matching row of [dim], or one
    NULL-extended row when there is none. *)
Definition left_join {X} (dim : list row) (fk : X -> sql_value)
    (attach : X -> option row -> X) (rows : list X) : list X :=
  x ← rows;
  match List.filter (fun d => is_true (sql_eq (fk x) (VInt (row_id d)))) dim with
  | [] => [attach x None]
  | ms => (fun d => attach x (Some d)) <$> ms
  end.

Definition from_clause (history CL DL TL : list row) : list joined_row :=
  left_join TL (fun jr => column_value (jr_history jr) "terminal_id")
    (fun jr d => {| jr_history := jr_history jr; jr_CL := jr_CL jr;
                    jr_DL := jr_DL jr; jr_TL := d |})
  (left_join DL (fun jr => column_value (jr_history jr) "directory_id")
    (fun jr d => {| jr_history := jr_history jr; jr_CL := jr_CL jr;
                    jr_DL := d; jr_TL := jr_TL jr |})
  (left_join CL (fun jr => column_value (jr_history jr) "command_id")
    (fun jr d => {| jr_history := jr_history jr; jr_CL := d;
                    jr_DL := jr_DL jr; jr_TL := jr_TL jr |})
  ((fun h => {| jr_history := h; jr_CL := None; jr_DL := None; jr_TL := None |})
     <$> history))).

Definition or3 (a b : option bool) : option bool :=
  match a, b with
  | Some true, _ | _, Some true => Some true
  | Some false, Some false => Some false
  | _, _ => None
  end.

Definition and3 (a b : option bool) : option bool :=
  match a, b with
  | Some false, _ | _, Some false => Some false
  | Some true, Some true => Some true
  | _, _ => None
  end.

Definition eval_predicate (jr : joined_row) (pv : predicate * sql_value)
  : option bool :=
  match pv.1 with
  | Glob c => sql_glob pv.2 (joined_value jr c)
  | Equals c => sql_eq (joined_value jr c) pv.2
  end.

(** The predicates take the parameters in the order they are written. *)
Fixpoint attach_params (conditions : list (list predicate))
    (values : list sql_value) : list (list (predicate * sql_value)) :=
  match conditions with
  | [] => []
  | d :: rest =>
      zip d (take (length d) values)
        :: attach_params rest (drop (length d) values)
  end.

Definition eval_where (conditions : list (list (predicate * sql_value)))
    (jr : joined_row) : bool :=
  is_true (foldr and3 (Some true)
    ((fun d => foldr or3 (Some false) (eval_predicate jr <$> d)) <$> conditions)).

(** The six result columns of a row. *)
Definition result_columns (jr : joined_row) : list sql_value :=
  [joined_value jr "CL.command"; joined_value jr "DL.directory";
   joined_value jr "TL.terminal"; joined_value jr "start_time";
   joined_value jr "stop_time"; joined_value jr "exit_code"].

Definition start_time_of (jr : joined_row) : sql_value :=
  joined_value jr "start_time".

Definition group_key (jr : joined_row) : sql_value :=
  joined_value jr "CL.command".

(** [GROUP BY CL.command] with [MAX(start_time)]: one row per key, in the
    order the keys first occur.  With a single MAX the engine takes the other
    columns of a group from the row holding the greatest start time, so a
    group is represented by that row. *)
Fixpoint add_to_groups (jr : joined_row) (groups : list joined_row)
  : list joined_row :=
  match groups with
  | [] => [jr]
  | g :: rest =>
      if bool_decide (group_key g = group_key jr)
      then (if sql_le (start_time_of jr) (start_time_of g) then g else jr) :: rest
      else g :: add_to_groups jr rest
  end.

Definition group_rows (rows : list joined_row) : list joined_row :=
  fold_left (fun groups jr => add_to_groups jr groups) rows [].

Definition by_start_time (a b : joined_row) : Prop :=
  sql_le (start_time_of a) (start_time_of b) = true.

Global Instance by_start_time_dec a b : Decision (by_start_time a b).
Proof. unfold by_start_time. apply _. Defined.

(** [LIMIT n]: a negative [n] is no limit. *)
Definition sql_limit {X} (n : Z) (rows : list X) : list X :=
  if n <? 0 then rows else take (Z.to_nat n) rows.

Definition run_select (stmt : select_statement) (history CL DL TL : list row)
    (values : list sql_value) (n : Z) : list (list sql_value) :=
  let rows := List.filter (eval_where (attach_params (sel_where stmt) values))
                (from_clause history CL DL TL) in
  let rows := if sel_unique stmt then group_rows rows else rows in
  result_columns <$> sql_limit n (merge_sort by_start_time rows).

Definition count_params (stmt : select_statement) : nat :=
  length (concat (sel_where stmt)) + 1.

(** Executing the search statement against a store: the four tables and the
    columns it names must exist, the parameters must be as many as the
    placeholders, and the last one, the limit, must be an integer. *)
Definition store_search (s : gmap string table) (stmt : select_statement)
    (values : list sql_value) : exn + list (list sql_value) :=
  match prepare s "command_history"
          ["command_id"; "directory_id"; "terminal_id";
           "start_time"; "stop_time"; "exit_code"] has_column,
        prepare s "command_list" ["command"] has_column,
        prepare s "directory_list" ["directory"] has_column,
        prepare s "terminal_list" ["terminal"] has_column with
  | inr history, inr CL, inr DL, inr TL =>
      if bool_decide (length values = count_params stmt) then
        match List.last (Some <$> values) None with
        | Some (VInt n) =>
            inr (run_select stmt (tbl_rows history) (tbl_rows CL)
                   (tbl_rows DL) (tbl_rows TL) values n)
        | _ => inl OperationalError
        end
      else inl ProgrammingError
  | _, _, _, _ => inl OperationalError
  end.

(** ** Connections and the process state *)

Record connection_state := {
  conn_path : string;
  conn_open : bool;
  conn_txn : option (gmap string table);   (* rows written, not yet committed *)
}.

Record World := {
  files : gmap string (gmap string table);  (* committed database files *)
  conns : list connection_state;            (* every connection ever opened *)
  textfiles : gmap string (list string);    (* text files, as lists of writes *)
  handles : list (string * bool);           (* file objects: path, still open *)
  stdout : list string;
}.

Definition set_files (f : gmap string (gmap string table)) (w : World) : World :=
  {| files := f; conns := conns w; textfiles := textfiles w;
     handles := handles w; stdout := stdout w |}.

Definition set_conns (cs : list connection_state) (w : World) : World :=
  {| files := files w; conns := cs; textfiles := textfiles w;
     handles := handles w; stdout := stdout w |}.

Definition set_textfiles (t : gmap string (list string))
    (h : list (string * bool)) (w : World) : World :=
  {| files := files w; conns := conns w; textfiles := t;
     handles := h; stdout := stdout w |}.

Definition set_stdout (out : list string) (w : World) : World :=
  {| files := files w; conns := conns w; textfiles := textfiles w;
     handles := handles w; stdout := out |}.

(** What a statement on connection [c] reads: its own pending writes, or else
    the committed file. *)
Definition view (w : World) (c : connection_state) : gmap string table :=
  match conn_txn c with
  | Some s => s
  | None => default ∅ (files w !! conn_path c)
  end.

(** Computations that may raise; the state reached is kept on both outcomes. *)
Definition M (St A : Type) : Type := St -> (exn + A) * St.

Definition ret {St A} (a : A) : M St A := fun st => (inr a, st).

Definition raise {St A} (e : exn) : M St A := fun st => (inl e, st).

Definition bind {St A B} (m : M St A) (k : A -> M St B) : M St B :=
  fun st =>
    match m st with
    | (inl e, st') => (inl e, st')
    | (inr a, st') => k a st'
    end.

Declare Scope py_scope.
Delimit Scope py_scope with py.
Notation "x <- m ;; k" := (bind m (fun x => k))
  (at level 100, m at next level, right associativity) : py_scope.
Notation "m ;; k" := (bind m (fun _ => k))
  (at level 100, right associativity) : py_scope.
Local Open Scope py_scope.

(** [for x in items: body x] *)
Fixpoint for_each {St A} (items : list A) (body : A -> M St unit) : M St unit :=
  match items with
  | [] => ret tt
  | x :: rest => body x ;; for_each rest body
  end.

(** Lifting a pure, fallible step. *)
Definition lift_result {St A} (r : exn + A) : M St A :=
  match r with inl e => raise e | inr a => ret a end.

(** A connection object is named by its position among the connections of
    the process. *)
Abbreviation conn_id := nat (only parsing).

Definition set_conn (c : conn_id) (cs : connection_state) (w : World) : World :=
  set_conns (<[c := cs]> (conns w)) w.

(** [sqlite3.connect(path)]: the file is created when absent. *)
Definition connect (path : string) : M World conn_id :=
  fun w =>
    let f := match files w !! path with
             | Some _ => files w
             | None => <[path := ∅]> (files w)
             end in
    let c := {| conn_path := path; conn_open := true; conn_txn := None |} in
    (inr (length (conns w)), set_conns (conns w ++ [c]) (set_files f w)).

(** [connection.close()]: pending writes are dropped. *)
Definition close (c : conn_id) : M World unit :=
  fun w =>
    match conns w !! c with
    | Some cs => (inr tt, set_conn c {| conn_path := conn_path cs;
                                        conn_open := false;
                                        conn_txn := None |} w)
    | None => (inr tt, w)
    end.

(** The connection behind [c], provided it is open. *)
Definition open_connection (c : conn_id) : M World connection_state :=
  fun w =>
    match conns w !! c with
    | Some cs => if conn_open cs then (inr cs, w) else (inl ProgrammingError, w)
    | None => (inl ProgrammingError, w)
    end.

(** [connection.cursor()] *)
Definition cursor (c : conn_id) : M World conn_id :=
  open_connection c ;; ret c.

(** [connection.commit()] *)
Definition commit (c : conn_id) : M World unit :=
  cs <- open_connection c ;;
  fun w =>
    match conn_txn cs with
    | Some s => (inr tt, set_conn c {| conn_path := conn_path cs;
                                       conn_open := true;
                                       conn_txn := None |}
                                   (set_files (<[conn_path cs := s]> (files w)) w))
    | None => (inr tt, w)
    end.

(** [db.execute(sql, values)] for a [SELECT id ...]: the ids, in row order. *)
Definition execute_select_id (db : conn_id) (tname : string)
    (columns : list string) (params : list pyval) : M World (list Z) :=
  cs <- open_connection db ;;
  fun w =>
    match prepare (view w cs) tname columns has_column with
    | inl e => (inl e, w)
    | inr t =>
        match bind_params params with
        | inl e => (inl e, w)
        | inr values => (inr (select_id t columns values), w)
        end
    end.

(** [db.execute(sql, values)] for an [INSERT]; the result is [db.lastrowid].
    The row goes to the pending writes of the connection. *)
Definition execute_insert (db : conn_id) (tname : string)
    (columns : list string) (params : list pyval) : M World Z :=
  cs <- open_connection db ;;
  fun w =>
    match prepare (view w cs) tname columns assignable_column with
    | inl e => (inl e, w)
    | inr t =>
        match bind_params params with
        | inl e => (inl e, w)
        | inr values =>
            (inr (next_rowid (tbl_rows t)),
             set_conn db {| conn_path := conn_path cs;
                            conn_open := true;
                            conn_txn := Some (<[tname := insert_row t columns values]>
                                                (view w cs)) |} w)
        end
    end.


(** [cur.execute(sql, params)] for the search statement: the result rows. *)
Definition execute_search (cur : conn_id) (stmt : select_statement)
    (params : list pyval) : M World (list (list sql_value)) :=
  cs <- open_connection cur ;;
  fun w =>
    match bind_params params with
    | inl e => (inl e, w)
    | inr values => lift_result (store_search (view w cs) stmt values) w
    end.

(** [try: m finally: cleanup] *)
Definition finally {St A} (m : M St A) (cleanup : M St unit) : M St A :=
  fun st =>
    match m st with
    | (r, st') =>
        match cleanup st' with
        | (inl e, st'') => (inl e, st'')
        | (inr _, st'') => (r, st'')
        end
    end.

(** ** [schema.sql] *)

(** Modelled from the spec: [schema.sql] is not among the sources.  The tables
    are those of the data model (section 3); the columns are the ones the
    statements of [database.py] name.  No table has a uniqueness constraint
    besides its integer key. *)
Definition schema : list (string * list string) :=
  [("rash_info", ["rash_version"; "schema_version"]);
   ("command_list", ["command"]);
   ("directory_list", ["directory"]);
   ("terminal_list", ["terminal"]);
   ("environment_variable", ["variable_name"; "variable_value"]);
   ("command_history", ["command_id"; "directory_id"; "terminal_id";
                        "start_time"; "stop_time"; "exit_code"]);
   ("command_environment_map", ["ch_id"; "ev_id"]);
   ("pipe_status_map", ["ch_id"; "program_position"; "exit_code"])].

Definition create_table (s : gmap string table) (t : string * list string)
  : exn + gmap string table :=
  match s !! t.1 with
  | Some _ => inl OperationalError
  | None => inr (<[t.1 := {| tbl_columns := t.2; tbl_rows := [] |}]> s)
  end.

Fixpoint create_tables (s : gmap string table) (ts : list (string * list string))
  : exn + gmap string table :=
  match ts with
  | [] => inr s
  | t :: ts' =>
      match create_table s t with
      | inl e => inl e
      | inr s' => create_tables s' ts'
      end
  end.

(** [db.cursor().executescript(f.read())] on the schema script: pending writes
    are committed first, then every table is created at once. *)
Definition executescript_schema (c : conn_id) : M World unit :=
  commit c ;;
  cs <- open_connection c ;;
  fun w =>
    match create_tables (view w cs) schema with
    | inl e => (inl e, w)
    | inr s => (inr tt, set_files (<[conn_path cs := s]> (files w)) w)
    end.

(** ** [rash/model.py] *)

Module Model.

(** Modelled from the spec: [rash/model.py] is not among the sources.  The
    fields are those of the input record shape (section 6); an absent field
    is [None]. *)
Record CommandRecord := {
  command : option string;
  cwd : option string;
  terminal : option string;
  start : option Z;                        (* epoch seconds *)
  stop : option Z;
  exit_code : pyval;
  environ : option (list (pyval * pyval));  (* name, value *)
  pipestatus : option (list pyval);
}.

End Model.

(** ** [class DataBase] *)

Definition schema_version : string := "0.1.dev1".

Record DataBase := {
  dbpath : string;
  _db : option conn_id;   (* the attribute [_db]: [None] or a connection *)
  db : option unit;       (* the attribute [db]: absent, or holding [None] *)
}.

Definition St : Type := DataBase * World.

(** A step on the process state alone, run inside a method. *)
Definition world_op {A} (m : M World A) : M St A :=
  fun st =>
    match m st.2 with
    | (r, w') => (r, (st.1, w'))
    end.

Definition get_self : M St DataBase := fun st => (inr st.1, st).

(** [self._db = v] *)
Definition assign__db (v : option conn_id) : M St unit :=
  fun st => (inr tt, ({| dbpath := dbpath st.1; _db := v; db := db st.1 |}, st.2)).

(** [self.db = None] *)
Definition assign_db_None : M St unit :=
  fun st => (inr tt, ({| dbpath := dbpath st.1; _db := _db st.1; db := Some tt |}, st.2)).

(** [with self._get_db() as db: body db]: [_get_db] wraps a new connection in
    [closing], which closes it when the block is left, normally or not. *)
Definition with__get_db {A} (body : conn_id -> M St A) : M St A :=
  self <- get_self ;;
  c <- world_op (connect (dbpath self)) ;;
  finally (body c) (world_op (close c)).

(** ** Text output *)

Inductive sink :=
| Stdout
| FileObject (h : nat).

(** [open(path, 'w', encoding='utf-8')]: the file is created or emptied. *)
Definition open_w (path : string) : M World sink :=
  fun w =>
    (inr (FileObject (length (handles w))),
     set_textfiles (<[path := []]> (textfiles w)) (handles w ++ [(path, true)]) w).

(** [f.close()] *)
Definition close_file (f : sink) : M World unit :=
  fun w =>
    match f with
    | Stdout => (inr tt, set_stdout (stdout w) w)
    | FileObject h =>
        match handles w !! h with
        | Some (path, _) =>
            (inr tt, set_textfiles (textfiles w) (<[h := (path, false)]> (handles w)) w)
        | None => (inr tt, w)
        end
    end.

(** [f.write(text)] *)
Definition write (f : sink) (text : string) : M World unit :=
  fun w =>
    match f with
    | Stdout => (inr tt, set_stdout (stdout w ++ [text]) w)
    | FileObject h =>
        match handles w !! h with
        | Some (path, true) =>
            (inr tt, set_textfiles
                       (<[path := default [] (textfiles w !! path) ++ [text]]>
                          (textfiles w)) (handles w) w)
        | _ => (inl (ValueError "I/O operation on closed file."), w)
        end
    end.

Section Repository.

(** [os.getcwd()] and [rash.__version__] *)
Context (getcwd : string) (version : string).

Definition _init_db : M St unit :=
  with__get_db (fun db =>
    world_op (executescript_schema db) ;;
    world_op (execute_insert db "rash_info"
                ["rash_version"; "schema_version"]
                [PStr version; PStr schema_version]) ;;
    world_op (commit db)).

(** [DataBase(dbpath)] *)
Definition __init__ (dbpath : string) : M World DataBase :=
  fun w =>
    let self := {| dbpath := dbpath; _db := None; db := None |} in
    if bool_decide (is_Some (files w !! dbpath)) then (inr self, w)
    else
      match _init_db (self, w) with
      | (inl e, st) => (inl e, st.2)
      | (inr _, st) => (inr st.1, st.2)
      end.

(** The context manager [connection]: [with self.connection() as c: body c]. *)
Definition connection {A} (body : conn_id -> M St A) : M St A :=
  self <- get_self ;;
  match _db self with
  | Some c => body c
  | None =>
      finally
        (with__get_db (fun db => assign__db (Some db) ;; body db))
        assign_db_None
  end.

Definition _get_maybe_new_id (db : conn_id) (tname : string)
    (columns : list (string * pyval)) : M St Z :=
  let kvlist := columns in
  let values := kvlist.*2 in
  ids <- world_op (execute_select_id db tname (kvlist.*1) values) ;;
  match ids with
  | id_val :: _ => ret id_val
  | [] => world_op (execute_insert db tname (kvlist.*1) values)
  end.

Definition _get_maybe_new_command_id (db : conn_id) (command : option string)
  : M St (option Z) :=
  match command with
  | None => ret None
  | Some command =>
      i <- _get_maybe_new_id db "command_list" [("command", PStr command)] ;;
      ret (Some i)
  end.

Definition _get_maybe_new_directory_id (db : conn_id)
    (directory : option string) : M St (option Z) :=
  match directory with
  | None => ret None
  | Some directory =>
      let directory := normalize_directory getcwd directory in
      i <- _get_maybe_new_id db "directory_list" [("directory", PStr directory)] ;;
      ret (Some i)
  end.

Definition _get_maybe_new_terminal_id (db : conn_id) (terminal : option string)
  : M St (option Z) :=
  match terminal with
  | None => ret None
  | Some terminal =>
      i <- _get_maybe_new_id db "terminal_list" [("terminal", PStr terminal)] ;;
      ret (Some i)
  end.

(** An id as a statement parameter. *)
Definition id_param (i : option Z) : pyval :=
  match i with None => PNone | Some z => PInt z end.

(** [convert_ts]: [None] stays [None]; [utcfromtimestamp] accepts the
    instants of the years 1 to 9999. *)
Definition convert_ts (ts : option Z) : M St pyval :=
  match ts with
  | None => ret PNone
  | Some ts =>
      if (-62135596800 <=? ts) && (ts <=? 253402300799)
      then ret (PDatetime ts) else raise OverflowError
  end.

Definition _insert_command_history (db : conn_id) (crec : Model.CommandRecord)
  : M St Z :=
  command_id <- _get_maybe_new_command_id db (Model.command crec) ;;
  directory_id <- _get_maybe_new_directory_id db (Model.cwd crec) ;;
  terminal_id <- _get_maybe_new_terminal_id db (Model.terminal crec) ;;
  start_time <- convert_ts (Model.start crec) ;;
  stop_time <- convert_ts (Model.stop crec) ;;
  world_op (execute_insert db "command_history"
    ["command_id"; "directory_id"; "terminal_id";
     "start_time"; "stop_time"; "exit_code"]
    [id_param command_id; id_param directory_id; id_param terminal_id;
     start_time; stop_time; Model.exit_code crec]).

Definition is_None (v : pyval) : bool :=
  match v with PNone => true | _ => false end.

Definition _insert_environ (db : conn_id) (ch_id : Z)
    (environ : option (list (pyval * pyval))) : M St unit :=
  match environ with
  | None | Some [] => ret tt
  | Some items =>
      for_each items (fun nv =>
        if is_None nv.1 || is_None nv.2 then ret tt
        else
          ev_id <- _get_maybe_new_id db "environment_variable"
                     [("variable_name", nv.1); ("variable_value", nv.2)] ;;
          world_op (execute_insert db "command_environment_map"
                      ["ch_id"; "ev_id"] [PInt ch_id; PInt ev_id]) ;;
          ret tt)
  end.

(** [enumerate(items)] *)
Definition enumerate {A} (items : list A) : list (nat * A) :=
  zip (seq 0 (length items)) items.

Definition _insert_pipe_status (db : conn_id) (ch_id : Z)
    (pipe_status : option (list pyval)) : M St unit :=
  match pipe_status with
  | None | Some [] => ret tt
  | Some codes =>
      for_each (enumerate codes) (fun ic =>
        world_op (execute_insert db "pipe_status_map"
                    ["ch_id"; "program_position"; "exit_code"]
                    [PInt ch_id; PInt (Z.of_nat ic.1); ic.2]) ;;
        ret tt)
  end.

Definition select_by_command_record (crec : Model.CommandRecord)
  : list Model.CommandRecord := [].

Definition import_dict (dct : Model.CommandRecord) (check_duplicate : bool)
  : M St unit :=
  let crec := dct in
  if check_duplicate && nonempty (select_by_command_record crec) then ret tt
  else
    connection (fun connection =>
      db <- world_op (cursor connection) ;;
      ch_id <- _insert_command_history db crec ;;
      _insert_environ db ch_id (Model.environ crec) ;;
      _insert_pipe_status db ch_id (Model.pipestatus crec) ;;
      world_op (commit connection)).

(** The statement the engine reads off the compiled text: one disjunction
    per non-empty criterion, one predicate per pattern. *)
Definition or_group (p : predicate) (n : nat) : list (list predicate) :=
  match n with O => [] | _ => [replicate n p] end.

Definition search_statement (kwds : search_kwds) : select_statement :=
  {| sel_where := or_group (Glob "CL.command") (length (pattern kwds))
                  ++ or_group (Glob "DL.directory") (length (cwd_glob kwds))
                  ++ or_group (Equals "DL.directory") (length (cwd kwds));
     sel_unique := unique kwds |}.

(** [search_command_record], the generator run to its end: each row
    becomes [dict(zip(keys, row))], the keyword arguments of the record. *)
Definition search_command_record (kwds : search_kwds)
  : M St (list (list (string * sql_value))) :=
  let '(sql, params, keys) := _compile_sql_search_command_record getcwd kwds in
  connection (fun connection =>
    cur <- world_op (cursor connection) ;;
    rows <- world_op (execute_search cur (search_statement kwds) params) ;;
    ret (zip keys <$> rows)).

(** ** [rash/export.py]: dispatch *)

(** [cfstore.db_path] of [rash/config.py], and the exporter [export_bash],
    which the dispatch only hands on. *)
Context (db_path : string).
Context (export_bash : DataBase -> sink -> M World unit).

Definition SUPPORTED_FORMATS : list string := ["bash"].

Definition exporters : list (string * (DataBase -> sink -> M World unit)) :=
  [("bash", export_bash)].

Definition get_exporter (format : string)
  : M World (DataBase -> sink -> M World unit) :=
  match List.find (fun kv => String.eqb kv.1 format) exporters with
  | None =>
      raise (ValueError ("Unsupported format: " +:+ format +:+
                         ". Supported formats: " +:+
                         Py.join ", " SUPPORTED_FORMATS))
  | Some kv => ret kv.2
  end.

Definition export_run (format output : string) : M World unit :=
  db <- __init__ db_path ;;
  output_file <- (if String.eqb output "-" then ret Stdout
                  else open_w output) ;;
  finally
    (exporter <- get_exporter format ;;
     exporter db output_file)
    (if negb (String.eqb output "-") then close_file output_file else ret tt).

End Repository.

(** ** [rash/record.py]: the environment snapshot and the session id *)

Module Recorder.

Inductive error :=
| KeyError (key : string).

(** The entries of the dict [data] that [generate_session_id] reads, as
    [record_run] builds them: [environ] is the dict [get_environ] returns,
    [start] an integer; an entry may be missing. *)
Record session_data := {
  environ : option (gmap string string);
  start : option Z;
}.

(** [not v] for the result of a [dict.get]: [None] and the empty string
    are false. *)
Definition falsy (v : option string) : bool :=
  match v with
  | None => true
  | Some s => String.eqb s ""
  end.

Section Process.

(** [os.environ], [os.ttyname] (no name where it raises [OSError]),
    [platform.node()] and [os.getppid()] *)
Context (os_environ : gmap string string) (ttyname : nat -> option string).
Context (node : string) (getppid : Z).

(** The loop of [get_tty] over the descriptors left to try. *)
Fixpoint first_ttyname (fds : list nat) : option string :=
  match fds with
  | [] => None
  | i :: rest =>
      match ttyname i with
      | Some name => Some name
      | None => first_ttyname rest
      end
  end.

Definition get_tty : option string := first_ttyname (seq 0 3).

Definition get_environ (keys : list string) : gmap string string :=
  let items := (fun k => (k, os_environ !! k)) <$> keys in
  let subenv :=
    fold_left (fun d kv => match kv.2 with
                           | Some v => <[kv.1 := v]> d
                           | None => d
                           end) items ∅ in
  let subenv :=
    if bool_decide ("HOST" ∈ keys) && falsy (subenv !! "HOST")
    then <["HOST" := node]> subenv else subenv in
  if bool_decide ("TTY" ∈ keys) && falsy (subenv !! "TTY") then
    let tty := get_tty in
    if falsy tty then subenv else <["TTY" := default "" tty]> subenv
  else subenv.

Definition generate_session_id (data : session_data) : error + string :=
  match environ data with
  | None => inl (KeyError "environ")
  | Some env =>
      match env !! "HOST" with
      | None => inl (KeyError "HOST")
      | Some host =>
          let tty := if falsy (env !! "TTY") then "NO_TTY"
                     else default "" (env !! "TTY") in
          match start data with
          | None => inl (KeyError "start")
          | Some start =>
              inr (Py.join ":" [host; tty; pretty getppid; pretty start])
          end
      end
  end.

End Process.

End Recorder.

(** * Notions the properties are stated with *)

(** ** The statement text *)

(** The text of the statement the engine is handed, written from its
    structure. *)
Definition render_predicate (p : predicate) : string :=
  match p with
  | Glob c => "glob(?, " +:+ c +:+ ")"
  | Equals c => c +:+ " = ?"
  end.

Definition render_disjunction (d : list predicate) : string :=
  "(" +:+ Py.join " OR " (render_predicate <$> d) +:+ ")".

Definition render_statement (stmt : select_statement) : string :=
  format_select (Py.join ", " (select_columns (sel_unique stmt)))
    (where_clause (render_disjunction <$> sel_where stmt))
    (group_by_clause (sel_unique stmt)).

(** The clause of one criterion category in the words of the specification:
    one sub-condition per pattern, joined by OR, in parentheses; nothing for an
    empty category. *)
Definition category_clause (condition : string) (n : nat) : list string :=
  match n with
  | O => []
  | S _ => ["(" +:+ Py.join " OR " (replicate n condition) +:+ ")"]
  end.

Definition category_clauses (kwds : search_kwds) : list string :=
  category_clause "glob(?, CL.command)" (length (pattern kwds))
  ++ category_clause "glob(?, DL.directory)" (length (cwd_glob kwds))
  ++ category_clause "DL.directory = ?" (length (cwd kwds)).

(** A disjunction of the statement with the parameters it takes. *)
Definition paired (p : predicate) (values : list sql_value)
  : list (list (predicate * sql_value)) :=
  match values with
  | [] => []
  | _ => [(fun v => (p, v)) <$> values]
  end.

(** ** What a connection sees, and what is committed *)

(** The store connection [c] reads. *)
Definition visible (w : World) (c : conn_id) : gmap string table :=
  match conns w !! c with
  | Some cs => view w cs
  | None => ∅
  end.

(** The rows of a table of a store; none when the table is missing. *)
Definition table_rows (s : gmap string table) (tname : string) : list row :=
  match s !! tname with
  | Some t => tbl_rows t
  | None => []
  end.

(** The rows of a table in the committed file at [path]. *)
Definition committed_rows (w : World) (path tname : string) : list row :=
  table_rows (default ∅ (files w !! path)) tname.

(** The values a row holds in the key columns of a dimension. *)
Definition key_of (columns : list string) (r : row) : list sql_value :=
  column_value r <$> columns.

(** No two rows hold the same values in the key columns. *)
Definition unique_keys (columns : list string) (rows : list row) : Prop :=
  NoDup (key_of columns <$> rows).

(** The connection [c] with the store [s] as its pending writes. *)
Definition with_txn (c : conn_id) (cs : connection_state)
    (s : gmap string table) (w : World) : World :=
  set_conn c {| conn_path := conn_path cs; conn_open := true;
                conn_txn := Some s |} w.

(** ** Scenarios *)

(** A process that has touched no file yet. *)
Definition fresh_world : World :=
  {| files := ∅; conns := []; textfiles := ∅; handles := []; stdout := [] |}.

(** A record with a command text, a working directory and a start time. *)
Definition record_of (command cwd : string) (start : Z) : Model.CommandRecord :=
  {| Model.command := Some command; Model.cwd := Some cwd;
     Model.terminal := None; Model.start := Some start; Model.stop := None;
     Model.exit_code := PInt 0; Model.environ := None;
     Model.pipestatus := None |}.

Definition record_A : Model.CommandRecord := record_of "ls" "/home" 100.
Definition record_B : Model.CommandRecord := record_of "ls" "/home" 200.

(** [DataBase(path)] followed by one method call on the new instance, as one
    run of the command line does; the result and the process state after. *)
Definition run_on_new_instance {A} (version path : string) (method : M St A)
    (w : World) : (exn + A) * World :=
  match __init__ version path w with
  | (inl e, w') => (inl e, w')
  | (inr self, w') =>
      match method (self, w') with
      | (r, st) => (r, st.2)
      end
  end.

(** ** Steps of an import *)

(** Whatever its outcome, [m] moves the state along [R]. *)
Definition preserves {S A} (R : S -> S -> Prop) (m : M S A) : Prop :=
  forall st r st', m st = (r, st') -> R st st'.

(** [extends c T st st']: from [st] to [st'] the instance and the committed
    files are the same, connection [c] keeps its file and stays open if it
    was, every table it sees has at most gained rows at its end, and only the
    tables of [T] have gained any. *)
Definition extends (c : conn_id) (T : list string) (st st' : St) : Prop :=
  st'.1 = st.1
  /\ files st'.2 = files st.2
  /\ (forall cs, conns st.2 !! c = Some cs ->
        exists cs', conns st'.2 !! c = Some cs'
                    /\ conn_path cs' = conn_path cs
                    /\ (conn_open cs = true -> conn_open cs' = true))
  /\ (forall tname, table_rows (visible st.2 c) tname
                      `prefix_of` table_rows (visible st'.2 c) tname)
  /\ (forall tname, tname ∉ T ->
        table_rows (visible st'.2 c) tname = table_rows (visible st.2 c) tname).

(** The tables each part of an import writes, and their key columns. *)
Definition dimension_tables : list string :=
  ["command_list"; "directory_list"; "terminal_list"].

Definition environ_tables : list string :=
  ["environment_variable"; "command_environment_map"].

Definition import_tables : list string :=
  dimension_tables ++ ["command_history"] ++ environ_tables ++ ["pipe_status_map"].

Definition environ_columns : list string := ["variable_name"; "variable_value"].

Definition pipe_status_columns : list string :=
  ["ch_id"; "program_position"; "exit_code"].

(** The block under [with self.connection() as connection] in
    [import_dict]. *)
Definition import_body (getcwd : string) (crec : Model.CommandRecord)
    (connection : conn_id) : M St unit :=
  db <- world_op (cursor connection) ;;
  ch_id <- _insert_command_history getcwd db crec ;;
  _insert_environ db ch_id (Model.environ crec) ;;
  _insert_pipe_status db ch_id (Model.pipestatus crec) ;;
  world_op (commit connection).

(** All rows of the record [crec] are among the rows [rows] of each table:
    one new fact row after those seen before, a variable row and a join row
    for every environment pair without [None], one row for every position of
    the pipe status. *)
Definition landed (crec : Model.CommandRecord) (before : list row)
    (rows : string -> list row) : Prop :=
  exists ch,
    rows "command_history" = before ++ [ch]
    /\ (forall name value,
          (name, value) ∈ default [] (Model.environ crec) ->
          name <> PNone -> value <> PNone ->
          exists ev m,
            ev ∈ rows "environment_variable"
            /\ bind_params [name; value] = inr (key_of environ_columns ev)
            /\ m ∈ rows "command_environment_map"
            /\ key_of ["ch_id"; "ev_id"] m = [VInt (row_id ch); VInt (row_id ev)])
    /\ (forall i code,
          default [] (Model.pipestatus crec) !! i = Some code ->
          exists p v,
            p ∈ rows "pipe_status_map"
            /\ bind_param code = inr v
            /\ key_of pipe_status_columns p
               = [VInt (row_id ch); VInt (Z.of_nat i); v]).

(** The rows the instance sees before an operation, and the file the
    operation writes: those of the connection it holds, or else those of the
    committed file at [dbpath]. *)
Definition seen_rows (st : St) (tname : string) : list row :=
  match _db st.1 with
  | Some c => table_rows (visible st.2 c) tname
  | None => committed_rows st.2 (dbpath st.1) tname
  end.

(** The file an operation of the instance writes. *)
Definition store_path (st : St) : string :=
  match _db st.1 with
  | Some c => default (dbpath st.1) (conn_path <$> conns st.2 !! c)
  | None => dbpath st.1
  end.

(** A new instance on a store that did not exist. *)
Definition new_instance : St :=
  match __init__ "0.1" "rash.db" fresh_world with
  | (inr self, w) => (self, w)
  | (inl _, w) => ({| dbpath := "rash.db"; _db := None; db := None |}, w)
  end.


(** A connection opened on the new store, outside any method. *)
Definition opened_store : St :=
  (new_instance.1, (connect "rash.db" new_instance.2).2).

(** A record of a command run in the root directory, and the search for one
    exact directory. *)
Definition record_root : Model.CommandRecord := record_of "cd" "/" 150.

Definition exact_directory_search (directory : string) (n : Z) : search_kwds :=
  {| limit := n; pattern := []; cwd := [directory]; cwd_glob := [];
     unique := false |}.

(** The text a table holds in a column, row by row. *)
Definition column_of (rows : list row) (c : string) : list sql_value :=
  (fun r => column_value r c) <$> rows.

(** ** Paths *)

(** The path has a character other than the separator. *)
Fixpoint has_component_char (s : string) : bool :=
  match s with
  | EmptyString => false
  | String c s' => negb (Ascii.eqb c "/"%char) || has_component_char s'
  end.

(** What [abspath] hands to [normpath]. *)
Definition absolute (getcwd path : string) : string :=
  if PosixPath.isabs path then path else PosixPath.join getcwd path.

(** ** Export *)

(** The failure [get_exporter] raises for [format]. *)
Definition unsupported_message (format : string) : string :=
  "Unsupported format: " +:+ format +:+ ". Supported formats: bash".

(** The process state once [export_run] has opened the sink [output] and
    closed it again. *)
Definition sink_opened_and_closed (output : string) (w : World) : World :=
  if String.eqb output "-" then w
  else (close_file (FileObject (length (handles w))) (open_w output w).2).2.

(** A process in whose directory the output file exists already, and an
    exporter that writes nothing. *)
Definition world_with_output : World :=
  {| files := ∅; conns := []; textfiles := {["out.txt" := ["#100"; "ls"]]};
     handles := []; stdout := [] |}.

Definition no_exporter (_ : DataBase) (_ : sink) : M World unit := ret tt.

(** ** Search results *)








(** The block under [with self.connection() as connection] in
    [search_command_record]. *)
Definition search_body (getcwd : string) (kwds : search_kwds)
    (connection : conn_id) : M St (list (list (string * sql_value))) :=
  cur <- world_op (cursor connection) ;;
  rows <- world_op (execute_search cur (search_statement kwds)
                      (_compile_sql_search_command_record getcwd kwds).1.2) ;;
  ret (zip keys <$> rows).




(** ** Rows of an import *)

(** The foreign key [fk] of a fact row stands for the dimension value
    [value]: NULL when the record has none, and otherwise the id of a row of
    the dimension table holding the value in [column]. *)
Definition references (rows : list row) (column : string)
    (value : option string) (fk : sql_value) : Prop :=
  match value with
  | None => fk = VNull
  | Some v =>
      exists d, d ∈ rows /\ fk = VInt (row_id d)
                /\ column_value d column = VText v
  end.

(** What the store holds for a timestamp of a record. *)
Definition stored_time (ts : option Z) : sql_value :=
  match ts with
  | None => VNull
  | Some t => VDatetime t
  end.

(** The fact row [ch] carries the record [crec]: its foreign keys stand for
    the command text, the normalised directory and the terminal, its times
    are those of the record, its exit code is the bound one. *)
Definition carries (getcwd : string) (crec : Model.CommandRecord)
    (rows : string -> list row) (ch : row) : Prop :=
  references (rows "command_list") "command" (Model.command crec)
    (column_value ch "command_id")
  /\ references (rows "directory_list") "directory"
       (normalize_directory getcwd <$> Model.cwd crec)
       (column_value ch "directory_id")
  /\ references (rows "terminal_list") "terminal" (Model.terminal crec)
       (column_value ch "terminal_id")
  /\ column_value ch "start_time" = stored_time (Model.start crec)
  /\ column_value ch "stop_time" = stored_time (Model.stop crec)
  /\ bind_param (Model.exit_code crec) = inr (column_value ch "exit_code").

(** The row [r] of the pipe-status table records position [ic.1] with exit
    code [ic.2] for the fact row [ch_id]. *)
Definition pipe_status_row (ch_id : Z) (ic : nat * pyval) (r : row) : Prop :=
  exists v, bind_param ic.2 = inr v
            /\ key_of pipe_status_columns r
               = [VInt ch_id; VInt (Z.of_nat ic.1); v].

(** The pair has neither a [None] name nor a [None] value. *)
Definition recorded_pair (nv : pyval * pyval) : bool :=
  negb (is_None nv.1 || is_None nv.2).

(** The row [m] of the environment map links the fact row [ch_id] with a
    variable row, among [variables], that holds the pair [nv]. *)
Definition environment_row (ch_id : Z) (variables : list row)
    (nv : pyval * pyval) (m : row) : Prop :=
  exists ev, ev ∈ variables
             /\ bind_params [nv.1; nv.2] = inr (key_of environ_columns ev)
             /\ key_of ["ch_id"; "ev_id"] m = [VInt ch_id; VInt (row_id ev)].

(** A record of a pipeline, with an environment one of whose values is
    unset, and with no terminal. *)
Definition record_piped : Model.CommandRecord :=
  {| Model.command := Some "make | tee log"; Model.cwd := Some "/src/";
     Model.terminal := None; Model.start := Some 100;
     Model.stop := Some 101; Model.exit_code := PInt 2;
     Model.environ := Some [(PStr "SHELL", PStr "/bin/sh");
                            (PStr "EDITOR", PNone);
                            (PStr "PATH", PStr "/bin")];
     Model.pipestatus := Some [PInt 2; PInt 0] |}.

(** ** Searching without the unique flag *)








(** ** An instance after its first operation *)

(** A step that leaves the attributes of the instance as they are. *)
Definition same_self (st st' : St) : Prop := st'.1 = st.1.

(** The instance refers to a connection that is not open. *)
Definition holds_closed (st : St) : Prop :=
  exists c, _db st.1 = Some c
            /\ forall cs, conns st.2 !! c = Some cs -> conn_open cs = false.

(** A search for everything. *)
Definition search_all : search_kwds :=
  {| limit := -1; pattern := []; cwd := []; cwd_glob := []; unique := false |}.

(** ** The schema of a store *)

(** The store the schema script makes of a new file. *)
Definition empty_store : gmap string table :=
  list_to_map
    ((fun t => (t.1, {| tbl_columns := t.2; tbl_rows := [] |})) <$> schema).

(** The row [_init_db] writes, and the store it leaves. *)
Definition info_row (version : string) : row :=
  {| row_id := 1;
     row_fields := list_to_map [("rash_version", VText version);
                                ("schema_version", VText schema_version)] |}.

Definition initial_store (version : string) : gmap string table :=
  <["rash_info" := {| tbl_columns := ["rash_version"; "schema_version"];
                      tbl_rows := [info_row version] |}]> empty_store.

(** The store has every table of the schema, with its columns. *)
Definition has_tables (s : gmap string table) : Prop :=
  forall t, t ∈ schema ->
    exists tb, s !! t.1 = Some tb /\ tbl_columns tb = t.2.



(** ** An imported record, searched for *)






(** ** Ids of a table *)

(** No two rows have the same id. *)
Definition distinct_ids (rows : list row) : Prop := NoDup (row_id <$> rows).

(** A store with one table of terminals, and a connection on it. *)
Definition terminal_store : St :=
  ({| dbpath := "t.db"; _db := None; db := None |},
   {| files := {["t.db" := {["terminal_list" :=
                   {| tbl_columns := ["terminal"]; tbl_rows := [] |}]}]};
      conns := [{| conn_path := "t.db"; conn_open := true; conn_txn := None |}];
      textfiles := ∅; handles := []; stdout := [] |}).

(** ** Export to a sink *)

(** The sink [export_run] hands to the exporter, and the process state in
    which the exporter starts. *)
Definition export_sink (output : string) (w : World) : sink :=
  if String.eqb output "-" then Stdout else FileObject (length (handles w)).

Definition export_start (output : string) (w : World) : World :=
  if String.eqb output "-" then w else (open_w output w).2.

(** An exporter that writes one line and then fails. *)
Definition failing_exporter (_ : DataBase) (out : sink) : M World unit :=
  write out "#100" ;; raise OverflowError.

(** ** The recorder *)

(** A shell on a terminal, with a host name set to the empty string. *)
Definition shell_environ : gmap string string :=
  {["SHELL" := "/bin/zsh"; "HOST" := ""; "USER" := "rash"]}.

Definition shell_ttyname (fd : nat) : option string :=
  match fd with
  | 2%nat => Some "/dev/pts/3"
  | _ => None
  end.

(** * Properties *)

(** ** The statement text and its parameters *)

Lemma join_cons_nonempty sep a x l :
  exists b y, Py.join sep (String a x :: l) = String b y.
Proof.
  unfold Py.join. destruct l; simpl; eauto.
Qed.

Lemma concat_expr_replicate (condition : string) n :
  condition <> "" ->
  concat_expr "OR" (replicate n condition) = category_clause condition n.
Proof.
  intros Hne. destruct n as [|n]; [reflexivity|].
  destruct condition as [|a x]; [congruence|].
  unfold concat_expr, category_clause.
  change (" " +:+ "OR" +:+ " ") with " OR ".
  destruct (join_cons_nonempty " OR " a x (replicate n (String a x))) as (b & y & E).
  change (replicate (S n) (String a x)) with (String a x :: replicate n (String a x)).
  rewrite E. reflexivity.
Qed.

Lemma compiled_conditions getcwd kwds :
  (add_or_match EqTemplate "DL.directory" (normalize_directory getcwd <$> cwd kwds)
     (add_or_match GlobTemplate "DL.directory" (cwd_glob kwds)
        (add_or_match GlobTemplate "CL.command" (pattern kwds) ([], [])))).1
  = category_clauses kwds.
Proof.
  unfold add_or_match, repeat, category_clauses. cbn [fst].
  rewrite !concat_expr_replicate by discriminate.
  rewrite length_fmap. rewrite app_nil_l, <- app_assoc. reflexivity.
Qed.

Lemma compiled_sql getcwd kwds :
  (_compile_sql_search_command_record getcwd kwds).1.1
  = format_select (Py.join ", " (select_columns (unique kwds)))
      (where_clause (category_clauses kwds)) (group_by_clause (unique kwds)).
Proof.
  unfold _compile_sql_search_command_record.
  rewrite <- (compiled_conditions getcwd kwds).
  destruct (add_or_match _ _ _ _) as [conditions params]. reflexivity.
Qed.

Lemma compiled_params getcwd kwds :
  (_compile_sql_search_command_record getcwd kwds).1.2
  = (PStr <$> pattern kwds) ++ (PStr <$> cwd_glob kwds)
      ++ (PStr <$> (normalize_directory getcwd <$> cwd kwds))
      ++ [PInt (limit kwds)].
Proof.
  unfold _compile_sql_search_command_record, add_or_match. cbn.
  rewrite <- !app_assoc. reflexivity.
Qed.

Lemma render_or_group p condition n :
  render_predicate p = condition ->
  render_disjunction <$> or_group p n = category_clause condition n.
Proof.
  intros <-. destruct n as [|n]; [reflexivity|].
  unfold or_group, category_clause, render_disjunction.
  rewrite list_fmap_singleton, fmap_replicate. reflexivity.
Qed.

(** The statement executed by the engine is the one the compiled text
    spells. *)
Lemma search_statement_text getcwd kwds :
  render_statement (search_statement kwds)
  = (_compile_sql_search_command_record getcwd kwds).1.1.
Proof.
  rewrite compiled_sql. unfold render_statement, search_statement.
  cbn [sel_where sel_unique]. rewrite !fmap_app.
  rewrite (render_or_group _ "glob(?, CL.command)") by reflexivity.
  rewrite (render_or_group _ "glob(?, DL.directory)") by reflexivity.
  rewrite (render_or_group _ "DL.directory = ?") by reflexivity.
  reflexivity.
Qed.

Lemma zip_replicate_take (p : predicate) (values rest : list sql_value) :
  zip (replicate (length values) p)
      (take (length (replicate (length values) p)) (values ++ rest))
  = (fun v => (p, v)) <$> values.
Proof.
  rewrite length_replicate, take_app_length.
  induction values as [|v values IH]; [reflexivity|].
  cbn. now rewrite IH.
Qed.

Lemma attach_params_cons d conditions values :
  attach_params (d :: conditions) values
  = zip d (take (length d) values)
      :: attach_params conditions (drop (length d) values).
Proof. reflexivity. Qed.

Lemma attach_params_group p (values rest : list sql_value) conditions :
  attach_params (or_group p (length values) ++ conditions) (values ++ rest)
  = paired p values ++ attach_params conditions rest.
Proof.
  destruct values as [|v values]; [reflexivity|].
  replace (or_group p (length (v :: values)))
    with [replicate (length (v :: values)) p] by reflexivity.
  replace (paired p (v :: values))
    with [(fun x => (p, x)) <$> (v :: values)] by reflexivity.
  change ([replicate (length (v :: values)) p] ++ conditions)
    with (replicate (length (v :: values)) p :: conditions).
  rewrite attach_params_cons, zip_replicate_take.
  rewrite length_replicate, drop_app_length. reflexivity.
Qed.

(** C4: the bound parameters are the command patterns, then the directory
    glob patterns, then the exact directories after [normalize_directory], and
    last the limit; the importer normalises a directory with the same
    function; and the predicates of the statement take these parameters in
    that order. *)
Theorem compile_parameter_order getcwd kwds :
  let params := (_compile_sql_search_command_record getcwd kwds).1.2 in
  let directories := normalize_directory getcwd <$> cwd kwds in
  params = (PStr <$> pattern kwds) ++ (PStr <$> cwd_glob kwds)
             ++ (PStr <$> directories) ++ [PInt (limit kwds)]
  /\ List.last (Some <$> params) None = Some (PInt (limit kwds))
  /\ (forall db directory,
        _get_maybe_new_directory_id getcwd db (Some directory)
        = (i <- _get_maybe_new_id db "directory_list"
                  [("directory", PStr (normalize_directory getcwd directory))] ;;
           ret (Some i)))
  /\ attach_params (sel_where (search_statement kwds))
       ((VText <$> pattern kwds) ++ (VText <$> cwd_glob kwds)
          ++ (VText <$> directories) ++ [VInt (limit kwds)])
     = paired (Glob "CL.command") (VText <$> pattern kwds)
         ++ paired (Glob "DL.directory") (VText <$> cwd_glob kwds)
         ++ paired (Equals "DL.directory") (VText <$> directories).
Proof.
  cbv zeta. rewrite compiled_params. repeat split.
  - rewrite !fmap_app, !app_assoc. apply last_last.
  - unfold search_statement. cbn [sel_where].
    rewrite <- (length_fmap VText (pattern kwds)).
    rewrite <- (length_fmap VText (cwd_glob kwds)).
    rewrite <- (length_fmap (normalize_directory getcwd) (cwd kwds)).
    rewrite <- (length_fmap VText (normalize_directory getcwd <$> cwd kwds)).
    rewrite attach_params_group, attach_params_group.
    rewrite <- (app_nil_r (or_group _ _)), attach_params_group.
    cbn [attach_params]. now rewrite app_nil_r.
Qed.

(** C5: within a criterion category the sub-conditions are joined by OR and
    the result is put in parentheses; the clauses of the non-empty categories
    are joined by AND in one WHERE clause; without criteria there is no WHERE
    clause, and the statement still ends with the ordering and the limit. *)
Theorem compile_where_clause getcwd kwds :
  let clauses := category_clauses kwds in
  let where_ := match clauses with
                | [] => ""
                | _ => "WHERE " +:+ Py.join " AND " clauses +:+ " "
                end in
  (_compile_sql_search_command_record getcwd kwds).1.1
  = "SELECT " +:+ Py.join ", " (select_columns (unique kwds))
      +:+ " FROM command_history"
      +:+ " LEFT JOIN command_list AS CL ON command_id = CL.id"
      +:+ " LEFT JOIN directory_list AS DL ON directory_id = DL.id"
      +:+ " LEFT JOIN terminal_list AS TL ON terminal_id = TL.id "
      +:+ where_
      +:+ (if unique kwds then "GROUP BY CL.command " else "")
      +:+ " ORDER BY start_time LIMIT ?"
  /\ (forall n u,
        (_compile_sql_search_command_record getcwd
           {| limit := n; pattern := []; cwd := []; cwd_glob := [];
              unique := u |}).1.1
        = "SELECT " +:+ Py.join ", " (select_columns u)
            +:+ " FROM command_history"
            +:+ " LEFT JOIN command_list AS CL ON command_id = CL.id"
            +:+ " LEFT JOIN directory_list AS DL ON directory_id = DL.id"
            +:+ " LEFT JOIN terminal_list AS TL ON terminal_id = TL.id "
            +:+ (if u then "GROUP BY CL.command " else "")
            +:+ " ORDER BY start_time LIMIT ?").
Proof.
  cbv zeta. split.
  - rewrite compiled_sql. reflexivity.
  - intros n u. rewrite compiled_sql. reflexivity.
Qed.

(** ** The resolver on one table *)

Lemma bind_params_length vs values :
  bind_params vs = inr values -> length values = length vs.
Proof.
  revert values. induction vs as [|v vs IH]; intros values H; cbn in H.
  - now inversion H.
  - destruct (bind_param v); [discriminate|].
    destruct (bind_params vs); [discriminate|].
    inversion H; subst. cbn. f_equal. now apply IH.
Qed.

Lemma bind_params_not_null vs values :
  bind_params vs = inr values ->
  (forall v, v ∈ vs -> v <> PNone) ->
  forall x, x ∈ values -> x <> VNull.
Proof.
  revert values. induction vs as [|v vs IH]; intros values H Hn x Hx; cbn in H.
  - inversion H; subst. inversion Hx.
  - destruct (bind_param v) as [|y] eqn:Ev; [discriminate|].
    destruct (bind_params vs) as [|ys] eqn:Evs; [discriminate|].
    inversion H; subst. apply elem_of_cons in Hx as [->|Hx].
    + assert (v <> PNone) by (apply Hn; left).
      destruct v; cbn in Ev; try congruence.
      destruct (_ && _); congruence.
    + eapply IH; eauto. intros v' Hv'. apply Hn. now right.
Qed.

Lemma sql_eq_refl v : v <> VNull -> is_true (sql_eq v v) = true.
Proof.
  intros H. destruct v; try congruence; cbn; now rewrite bool_decide_eq_true_2.
Qed.

Lemma sql_eq_true a b : is_true (sql_eq a b) = true -> a = b.
Proof.
  destruct a, b; cbn; try discriminate;
    (destruct (bool_decide _) eqn:E; [now apply bool_decide_eq_true_1 in E | discriminate]).
Qed.

Lemma prepare_assignable_has s tname columns t :
  prepare s tname columns assignable_column = inr t ->
  prepare s tname columns has_column = inr t.
Proof.
  unfold prepare. destruct (s !! tname) as [t0|]; [|discriminate].
  destruct columns as [|c cs]; [discriminate|].
  destruct (forallb (assignable_column t0) (c :: cs)) eqn:E; [|discriminate].
  intros H; inversion H; subst.
  assert (forallb (has_column t) (c :: cs) = true) as ->; [|reflexivity].
  rewrite forallb_forall in *. intros x Hx. specialize (E x Hx).
  unfold assignable_column, has_column in *.
  apply andb_true_iff in E as [_ E]. rewrite E. apply orb_true_r.
Qed.

Lemma prepare_lookup s tname columns ok t :
  prepare s tname columns ok = inr t -> s !! tname = Some t.
Proof.
  unfold prepare. destruct (s !! tname) as [t0|]; [|discriminate].
  destruct columns; [discriminate|].
  destruct (forallb _ _); [|discriminate]. congruence.
Qed.

Lemma prepare_insert s tname columns ok t t' :
  prepare s tname columns ok = inr t ->
  tbl_columns t' = tbl_columns t ->
  (forall c, ok t' c = ok t c) ->
  prepare (<[tname := t']> s) tname columns ok = inr t'.
Proof.
  unfold prepare. rewrite lookup_insert_eq.
  destruct (s !! tname) as [t0|]; [|discriminate].
  destruct columns as [|c cs]; [discriminate|].
  destruct (forallb (ok t0) (c :: cs)) eqn:E; [|discriminate].
  intros H Hc Hok; inversion H; subst.
  assert (forallb (ok t') (c :: cs) = true) as ->; [|reflexivity].
  rewrite forallb_forall in *. intros x Hx. rewrite Hok. now apply E.
Qed.

Lemma prepare_assignable_not_id s tname columns t :
  prepare s tname columns assignable_column = inr t ->
  forall c, c ∈ columns -> String.eqb c "id" = false.
Proof.
  unfold prepare. destruct (s !! tname) as [t0|]; [|discriminate].
  destruct columns as [|c0 cs]; [discriminate|].
  destruct (forallb (assignable_column t0) (c0 :: cs)) eqn:E; [|discriminate].
  intros _ c Hc. rewrite forallb_forall in E.
  apply list_elem_of_In in Hc. specialize (E c Hc).
  unfold assignable_column in E. apply andb_true_iff in E as [E _].
  now apply negb_true_iff in E.
Qed.

(** The row just inserted answers the lookup with the same key. *)
Lemma new_row_matches t columns values :
  NoDup columns ->
  length values = length columns ->
  (forall c, c ∈ columns -> String.eqb c "id" = false) ->
  (forall x, x ∈ values -> x <> VNull) ->
  row_matches columns values (new_row t columns values) = true.
Proof.
  intros Hnd Hlen Hid Hnn. unfold row_matches.
  apply forallb_forall. intros [c v] Hin. apply list_elem_of_In in Hin.
  cbn [fst snd]. unfold column_value.
  rewrite (Hid c) by (eapply elem_of_zip_l; eauto).
  cbn [new_row row_fields].
  erewrite (elem_of_list_to_map_1 (M := gmap string)); [| |exact Hin].
  - cbn. apply sql_eq_refl. apply Hnn. eapply elem_of_zip_r; eauto.
  - rewrite fst_zip by lia. exact Hnd.
Qed.

(** A row that does not answer the lookup has another key. *)
Lemma row_matches_key columns values r :
  length values = length columns ->
  (forall x, x ∈ values -> x <> VNull) ->
  row_matches columns values r = true <-> key_of columns r = values.
Proof.
  intros Hlen Hnn. unfold row_matches, key_of.
  revert values Hlen Hnn. induction columns as [|c cs IH]; intros [|v vs] Hlen Hnn;
    try discriminate; [cbn; tauto|].
  cbn [zip zip_with forallb fst snd fmap list_fmap].
  rewrite andb_true_iff. rewrite IH.
  - split.
    + intros [H1 H2]. apply sql_eq_true in H1. cbn. congruence.
    + intros H. cbn in H. injection H as Hv Hvs. split; [|exact Hvs].
      rewrite Hv. apply sql_eq_refl. apply Hnn. left.
  - cbn in Hlen. lia.
  - intros x Hx. apply Hnn. now right.
Qed.

(** ** Running the steps of a method *)

Lemma bind_inr {S A B} (m : M S A) (k : A -> M S B) st b st' :
  bind m k st = (inr b, st') ->
  exists a st1, m st = (inr a, st1) /\ k a st1 = (inr b, st').
Proof.
  unfold bind. destruct (m st) as [[e|a] st1]; [discriminate|eauto].
Qed.


Lemma bind_run {S A B} (m : M S A) (k : A -> M S B) st a st1 :
  m st = (inr a, st1) -> bind m k st = k a st1.
Proof. unfold bind. now intros ->. Qed.

Lemma world_op_run {A} (m : M World A) st r w' :
  m st.2 = (r, w') -> world_op m st = (r, (st.1, w')).
Proof. unfold world_op. now intros ->. Qed.

Lemma world_op_inv {A} (m : M World A) st r st' :
  world_op m st = (r, st') -> m st.2 = (r, st'.2) /\ st'.1 = st.1.
Proof.
  unfold world_op. destruct (m st.2) as [r0 w']. intros H; inversion H; subst.
  auto.
Qed.

Lemma open_connection_inv c w r w' :
  open_connection c w = (r, w') ->
  w' = w /\
  match r with
  | inl e => e = ProgrammingError
  | inr cs => conns w !! c = Some cs /\ conn_open cs = true
  end.
Proof.
  unfold open_connection. destruct (conns w !! c) as [cs|].
  - destruct (conn_open cs) eqn:E; intros H; inversion H; subst; auto.
  - intros H; inversion H; subst; auto.
Qed.

Lemma open_connection_run c w cs :
  conns w !! c = Some cs -> conn_open cs = true ->
  open_connection c w = (inr cs, w).
Proof. unfold open_connection. now intros -> ->. Qed.

Lemma execute_select_id_inv db tname columns params w r w' :
  execute_select_id db tname columns params w = (r, w') ->
  w' = w /\
  forall ids, r = inr ids ->
    exists cs t values,
      conns w !! db = Some cs /\ conn_open cs = true
      /\ prepare (view w cs) tname columns has_column = inr t
      /\ bind_params params = inr values
      /\ ids = select_id t columns values.
Proof.
  unfold execute_select_id, bind.
  destruct (open_connection db w) as [[e|cs] w1] eqn:E;
    apply open_connection_inv in E as [-> E].
  - intros H; inversion H; subst. split; [reflexivity|discriminate].
  - destruct E as [E1 E2].
    destruct (prepare _ _ _ _) as [e|t] eqn:Ep.
    { intros H; inversion H; subst. split; [reflexivity|discriminate]. }
    destruct (bind_params params) as [e|values] eqn:Eb;
      intros H; inversion H; subst; (split; [reflexivity|]); [discriminate|].
    intros ids Hids; inversion Hids; subst. eauto 10.
Qed.

Lemma execute_select_id_run db tname columns params w cs t values :
  conns w !! db = Some cs -> conn_open cs = true ->
  prepare (view w cs) tname columns has_column = inr t ->
  bind_params params = inr values ->
  execute_select_id db tname columns params w
  = (inr (select_id t columns values), w).
Proof.
  intros H1 H2 H3 H4. unfold execute_select_id, bind.
  rewrite (open_connection_run _ _ _ H1 H2), H3, H4. reflexivity.
Qed.

Lemma execute_insert_inv db tname columns params w r w' :
  execute_insert db tname columns params w = (r, w') ->
  match r with
  | inl _ => w' = w
  | inr rid =>
      exists cs t values,
        conns w !! db = Some cs /\ conn_open cs = true
        /\ prepare (view w cs) tname columns assignable_column = inr t
        /\ bind_params params = inr values
        /\ rid = next_rowid (tbl_rows t)
        /\ w' = with_txn db cs (<[tname := insert_row t columns values]> (view w cs)) w
  end.
Proof.
  unfold execute_insert, bind.
  destruct (open_connection db w) as [[e|cs] w1] eqn:E;
    apply open_connection_inv in E as [-> E].
  - intros H; inversion H; subst. reflexivity.
  - destruct E as [E1 E2].
    destruct (prepare _ _ _ _) as [e|t] eqn:Ep.
    { intros H; inversion H; subst. reflexivity. }
    destruct (bind_params params) as [e|values] eqn:Eb;
      intros H; inversion H; subst; [reflexivity|].
    exists cs, t, values. auto 10.
Qed.

Lemma with_txn_lookup c cs s w :
  conns w !! c = Some cs ->
  conns (with_txn c cs s w) !! c
  = Some {| conn_path := conn_path cs; conn_open := true; conn_txn := Some s |}.
Proof.
  intros H. unfold with_txn, set_conn, set_conns. cbn.
  apply list_lookup_insert_eq. eapply lookup_lt_Some; eauto.
Qed.

Lemma with_txn_visible c cs s w :
  conns w !! c = Some cs -> visible (with_txn c cs s w) c = s.
Proof.
  intros H. unfold visible. now rewrite (with_txn_lookup _ _ _ _ H).
Qed.

Lemma visible_view w c cs :
  conns w !! c = Some cs -> visible w c = view w cs.
Proof. unfold visible. now intros ->. Qed.

Lemma select_id_insert_row t columns values :
  select_id (insert_row t columns values) columns values
  = select_id t columns values
      ++ (if row_matches columns values (new_row t columns values)
          then [next_rowid (tbl_rows t)] else []).
Proof.
  unfold select_id, insert_row. cbn [tbl_rows].
  rewrite List.filter_app, fmap_app. f_equal. cbn.
  destruct (row_matches _ _ _); reflexivity.
Qed.

(** The resolver, step by step: either the lookup finds an id and nothing is
    written, or it finds none and one row is appended to the table. *)
Lemma _get_maybe_new_id_inv db tname columns st i st' :
  _get_maybe_new_id db tname columns st = (inr i, st') ->
  exists cs t values,
    conns st.2 !! db = Some cs /\ conn_open cs = true
    /\ prepare (view st.2 cs) tname columns.*1 has_column = inr t
    /\ bind_params columns.*2 = inr values
    /\ ((exists ids, select_id t columns.*1 values = i :: ids /\ st' = st)
        \/ (select_id t columns.*1 values = []
            /\ prepare (view st.2 cs) tname columns.*1 assignable_column = inr t
            /\ i = next_rowid (tbl_rows t)
            /\ st' = (st.1, with_txn db cs
                         (<[tname := insert_row t columns.*1 values]> (view st.2 cs))
                         st.2))).
Proof.
  unfold _get_maybe_new_id. intros H.
  apply bind_inr in H as (ids & st1 & Hsel & H).
  apply world_op_inv in Hsel as [Hsel Hself].
  apply execute_select_id_inv in Hsel as [Hw Hsel].
  destruct (Hsel ids eq_refl) as (cs & t & values & H1 & H2 & H3 & H4 & H5).
  assert (st1 = st) as -> by (destruct st, st1; cbn in *; congruence).
  exists cs, t, values. repeat (split; [assumption|]).
  destruct ids as [|id_val ids].
  - right. apply world_op_inv in H as [H Hself'].
    apply execute_insert_inv in H
      as (cs' & t' & values' & G1 & G2 & G3 & G4 & G5 & G6).
    assert (cs' = cs) as -> by congruence.
    assert (values' = values) as -> by congruence.
    pose proof (prepare_lookup _ _ _ _ _ H3).
    pose proof (prepare_lookup _ _ _ _ _ G3).
    assert (t' = t) as -> by congruence.
    repeat (split; [now auto|]).
    destruct st, st'; cbn in *; congruence.
  - left. inversion H; subst. eauto.
Qed.

Lemma table_rows_prepare s tname columns ok t :
  prepare s tname columns ok = inr t -> table_rows s tname = tbl_rows t.
Proof.
  intros H. unfold table_rows. now rewrite (prepare_lookup _ _ _ _ _ H).
Qed.

Lemma table_rows_insert s tname t :
  table_rows (<[tname := t]> s) tname = tbl_rows t.
Proof. unfold table_rows. now rewrite lookup_insert_eq. Qed.

Lemma table_rows_insert_ne s tname tname' t :
  tname <> tname' ->
  table_rows (<[tname := t]> s) tname' = table_rows s tname'.
Proof. intros H. unfold table_rows. now rewrite lookup_insert_ne. Qed.

Lemma select_id_nil t columns values r :
  select_id t columns values = [] -> r ∈ tbl_rows t ->
  row_matches columns values r = false.
Proof.
  unfold select_id. intros H Hr.
  destruct (row_matches columns values r) eqn:E; [|reflexivity].
  apply fmap_nil_inv in H.
  assert (In r (List.filter (row_matches columns values) (tbl_rows t))) as Hin.
  { apply List.filter_In. split; [now apply list_elem_of_In|exact E]. }
  rewrite H in Hin. destruct Hin.
Qed.

Lemma select_id_elem t columns values i :
  i ∈ select_id t columns values ->
  exists r, r ∈ tbl_rows t /\ row_id r = i
            /\ row_matches columns values r = true.
Proof.
  unfold select_id. intros H.
  apply list_elem_of_fmap in H as (r & -> & Hr).
  apply list_elem_of_In, List.filter_In in Hr as [Hr Hm].
  exists r. split; [now apply list_elem_of_In|auto].
Qed.

(** Resolving a key that was just resolved finds the same id and writes
    nothing. *)
Lemma _get_maybe_new_id_again db tname columns st i st' :
  NoDup columns.*1 ->
  (forall v, v ∈ columns.*2 -> v <> PNone) ->
  _get_maybe_new_id db tname columns st = (inr i, st') ->
  _get_maybe_new_id db tname columns st' = (inr i, st').
Proof.
  intros Hnd Hnn H.
  pose proof H as H0.
  apply _get_maybe_new_id_inv in H0
    as (cs & t & values & H1 & H2 & H3 & H4 & [(ids & H5 & ->)|(H5 & H6 & -> & ->)]);
    [exact H|].
  set (s' := <[tname := insert_row t columns.*1 values]> (view st.2 cs)).
  set (cs' := {| conn_path := conn_path cs; conn_open := true;
                 conn_txn := Some s' |}).
  assert (length values = length columns.*1) as Hlen.
  { rewrite (bind_params_length _ _ H4). now rewrite !length_fmap. }
  pose proof (bind_params_not_null _ _ H4 Hnn) as Hvn.
  pose proof (prepare_assignable_not_id _ _ _ _ H6) as Hid.
  set (st' := (st.1, with_txn db cs s' st.2)).
  assert (world_op (execute_select_id db tname columns.*1 columns.*2) st'
          = (inr [next_rowid (tbl_rows t)], st')) as Hsel.
  { replace st' with (st'.1, st'.2) at 2 by reflexivity.
    apply world_op_run. cbn [st' fst snd].
    rewrite (execute_select_id_run db tname _ _ _ cs'
               (insert_row t columns.*1 values) values).
    - rewrite select_id_insert_row, H5, new_row_matches by assumption.
      reflexivity.
    - apply with_txn_lookup. exact H1.
    - reflexivity.
    - unfold view. cbn [cs' conn_txn]. eapply prepare_insert; eauto.
    - exact H4. }
  unfold _get_maybe_new_id. rewrite (bind_run _ _ _ _ _ Hsel). reflexivity.
Qed.

(** The resolver keeps the keys of a table distinct, and the id it returns
    is that of a row holding the key. *)
Lemma _get_maybe_new_id_keys db tname columns st i st' :
  NoDup columns.*1 ->
  (forall v, v ∈ columns.*2 -> v <> PNone) ->
  _get_maybe_new_id db tname columns st = (inr i, st') ->
  (unique_keys columns.*1 (table_rows (visible st.2 db) tname) ->
   unique_keys columns.*1 (table_rows (visible st'.2 db) tname))
  /\ exists r values,
       r ∈ table_rows (visible st'.2 db) tname /\ row_id r = i
       /\ bind_params columns.*2 = inr values
       /\ key_of columns.*1 r = values.
Proof.
  intros Hnd Hnn H.
  apply _get_maybe_new_id_inv in H
    as (cs & t & values & H1 & H2 & H3 & H4 & [(ids & H5 & ->)|(H5 & H6 & -> & ->)]).
  - assert (length values = length columns.*1) as Hlen.
    { rewrite (bind_params_length _ _ H4). now rewrite !length_fmap. }
    pose proof (bind_params_not_null _ _ H4 Hnn) as Hvn.
    split; [auto|].
    destruct (select_id_elem t columns.*1 values i) as (r & Hr & Hi & Hm).
    { rewrite H5. left. }
    exists r, values. rewrite (visible_view _ _ _ H1).
    rewrite (table_rows_prepare _ _ _ _ _ H3).
    repeat split; auto. now apply row_matches_key.
  - assert (length values = length columns.*1) as Hlen.
    { rewrite (bind_params_length _ _ H4). now rewrite !length_fmap. }
    pose proof (bind_params_not_null _ _ H4 Hnn) as Hvn.
    pose proof (prepare_assignable_not_id _ _ _ _ H6) as Hid.
    pose proof (new_row_matches t _ _ Hnd Hlen Hid Hvn) as Hnew.
    cbn [fst snd]. rewrite (with_txn_visible _ _ _ _ H1), table_rows_insert.
    rewrite (visible_view _ _ _ H1), (table_rows_prepare _ _ _ _ _ H3).
    split.
    + unfold unique_keys, insert_row. cbn [tbl_rows]. intros Hu.
      rewrite fmap_app. apply NoDup_app. split; [exact Hu|].
      split; [|apply NoDup_singleton].
      intros k Hk Hk'. apply list_elem_of_fmap in Hk as (r & -> & Hr).
      cbn in Hk'. apply list_elem_of_singleton in Hk'.
      apply row_matches_key in Hnew; auto.
      assert (row_matches columns.*1 values r = true) as Hm.
      { apply row_matches_key; auto. congruence. }
      rewrite (select_id_nil _ _ _ _ H5 Hr) in Hm. discriminate.
    + exists (new_row t columns.*1 values), values.
      unfold insert_row. cbn [tbl_rows].
      repeat split; auto.
      * apply elem_of_app. right. left.
      * now apply row_matches_key.
Qed.

(** C6: resolving a key again returns the same id and leaves the store as it
    is, so no second row is created; the keys of the table stay pairwise
    distinct, and the id names a row holding the key.  The columns of a key
    are distinct (a dict) and its values are not [None], which every caller
    ensures. *)
Theorem get_or_create_idempotent db tname columns st i st' :
  NoDup columns.*1 ->
  (forall v, v ∈ columns.*2 -> v <> PNone) ->
  _get_maybe_new_id db tname columns st = (inr i, st') ->
  _get_maybe_new_id db tname columns st' = (inr i, st')
  /\ (unique_keys columns.*1 (table_rows (visible st.2 db) tname) ->
      unique_keys columns.*1 (table_rows (visible st'.2 db) tname))
  /\ (exists r values,
        r ∈ table_rows (visible st'.2 db) tname /\ row_id r = i
        /\ bind_params columns.*2 = inr values
        /\ key_of columns.*1 r = values).
Proof.
  intros Hnd Hnn H. split.
  - eapply _get_maybe_new_id_again; eauto.
  - eapply _get_maybe_new_id_keys; eauto.
Qed.

(** ** The connection scope *)

Lemma close_inv c w r w' :
  close c w = (r, w') ->
  r = inr tt /\ files w' = files w
  /\ forall cs, conns w !! c = Some cs ->
       conns w' !! c = Some {| conn_path := conn_path cs; conn_open := false;
                               conn_txn := None |}.
Proof.
  unfold close. destruct (conns w !! c) as [cs0|] eqn:E0;
    intros H; inversion H; subst; repeat split; try discriminate.
  intros cs Hcs; inversion Hcs; subst. cbn.
  apply list_lookup_insert_eq. eapply lookup_lt_Some; eauto.
Qed.

(** The two ways through the context manager. *)
Lemma connection_inv {A} (body : conn_id -> M St A) st r st' :
  connection body st = (r, st') ->
  match _db st.1 with
  | Some c => body c st = (r, st')
  | None =>
      let c := length (conns st.2) in
      exists w1 st2,
        connect (dbpath st.1) st.2 = (inr c, w1)
        /\ conns w1 !! c = Some {| conn_path := dbpath st.1; conn_open := true;
                                  conn_txn := None |}
        /\ body c ({| dbpath := dbpath st.1; _db := Some c; db := db st.1 |}, w1)
           = (r, st2)
        /\ st'.2 = (close c st2.2).2
        /\ forall cs, conns st2.2 !! c = Some cs ->
             conns st'.2 !! c = Some {| conn_path := conn_path cs;
                                        conn_open := false; conn_txn := None |}
  end.
Proof.
  unfold connection, bind, get_self. cbn [fst snd].
  destruct (_db st.1) as [c|] eqn:E; [auto|].
  unfold finally, with__get_db, bind, get_self, world_op, assign__db,
    assign_db_None, connect. cbn [fst snd].
  unfold finally. cbn [fst snd].
  match goal with
  | |- context [body ?c ?s] => destruct (body c s) as [r2 st2] eqn:Eb
  end.
  cbn [fst snd].
  destruct (close (length (conns st.2)) st2.2) as [rc wc] eqn:Ec.
  assert (rc = inr tt
          /\ forall cs, conns st2.2 !! length (conns st.2) = Some cs ->
               conns wc !! length (conns st.2)
               = Some {| conn_path := conn_path cs; conn_open := false;
                         conn_txn := None |}) as [-> Hclosed].
  { apply close_inv in Ec as (-> & _ & Hc). auto. }
  cbn. intros H; inversion H; subst; clear H.
  eexists _, st2. split; [reflexivity|]. cbn [conns set_conns set_files].
  split; [apply list_lookup_middle; reflexivity|].
  split; [exact Eb|]. cbn [snd]. rewrite Ec. auto.
Qed.

(** C1, as amended: the scope hands out the connection the instance holds when
    it holds one, and opens none; when it holds none, the scope opens a new
    connection, runs with it, and closes it when the scope is left, whatever
    the outcome of the body. *)
Theorem connection_scope {A} (body : conn_id -> M St A) st r st' :
  connection body st = (r, st') ->
  match _db st.1 with
  | Some c => body c st = (r, st')
  | None =>
      let c := length (conns st.2) in
      exists w1 st2,
        connect (dbpath st.1) st.2 = (inr c, w1)
        /\ conns w1 !! c = Some {| conn_path := dbpath st.1; conn_open := true;
                                  conn_txn := None |}
        /\ body c ({| dbpath := dbpath st.1; _db := Some c; db := db st.1 |}, w1)
           = (r, st2)
        /\ st'.2 = (close c st2.2).2
        /\ forall cs, conns st2.2 !! c = Some cs ->
             conns st'.2 !! c = Some {| conn_path := conn_path cs;
                                        conn_open := false; conn_txn := None |}
  end.
Proof. apply connection_inv. Qed.

Lemma connection_scope_witness :
  let st := ({| dbpath := "rash.db"; _db := None; db := None |}, fresh_world) in
  let body := fun c : conn_id => ret (St := St) c in
  connection body st = ((connection body st).1, (connection body st).2)
  /\ exists w1 st2,
       connect "rash.db" fresh_world = (inr 0%nat, w1)
       /\ conns w1 !! 0%nat = Some {| conn_path := "rash.db"; conn_open := true;
                                      conn_txn := None |}
       /\ body 0%nat ({| dbpath := "rash.db"; _db := Some 0%nat; db := None |}, w1)
          = ((connection body st).1, st2)
       /\ ((connection body st).2).2 = (close 0%nat st2.2).2
       /\ forall cs, conns st2.2 !! 0%nat = Some cs ->
            conns ((connection body st).2).2 !! 0%nat
            = Some {| conn_path := conn_path cs; conn_open := false;
                      conn_txn := None |}.
Proof.
  intros st body. split; [reflexivity|].
  exact (connection_scope body st _ _ eq_refl).
Defined.

(** C1, as stated, fails: after a first import on a new instance the
    connection is closed although the instance lives on and still refers to
    it, and a second import on the instance is refused. *)
Lemma connection_closed_after_first_operation :
  match __init__ "0.1" "rash.db" fresh_world with
  | (inr self, w) =>
      match import_dict "/" record_A true (self, w) with
      | (inr _, st1) =>
          exists c cs,
            _db st1.1 = Some c /\ conns st1.2 !! c = Some cs
            /\ conn_open cs = false
            /\ (import_dict "/" record_B true st1).1 = inl ProgrammingError
      | _ => False
      end
  | _ => False
  end.
Proof.
  vm_compute. eexists _, _. repeat split.
Qed.

(** ** Steps that only add rows *)

Section Preserves.

Context {S : Type} (R : S -> S -> Prop).
Hypothesis R_refl : forall st, R st st.
Hypothesis R_trans : forall st1 st2 st3, R st1 st2 -> R st2 st3 -> R st1 st3.

Lemma preserves_ret {A} (a : A) : preserves R (ret a).
Proof. intros st r st' H. inversion H; subst. apply R_refl. Qed.

Lemma preserves_raise {A} e : preserves R (raise (A := A) e).
Proof. intros st r st' H. inversion H; subst. apply R_refl. Qed.

Lemma preserves_bind {A B} (m : M S A) (k : A -> M S B) :
  preserves R m -> (forall a, preserves R (k a)) -> preserves R (bind m k).
Proof.
  intros Hm Hk st r st'. unfold bind.
  destruct (m st) as [[e|a] st1] eqn:E.
  - intros H; inversion H; subst. eapply Hm; eauto.
  - intros H. eapply R_trans; [eapply Hm; eauto|eapply Hk; eauto].
Qed.

Lemma preserves_for_each {A} (items : list A) (body : A -> M S unit) :
  (forall x, preserves R (body x)) -> preserves R (for_each items body).
Proof.
  intros Hb. induction items as [|x items IH]; cbn [for_each].
  - apply preserves_ret.
  - apply preserves_bind; auto.
Qed.

(** What each turn of a loop establishes holds after the loop, when later
    turns cannot undo it. *)
Lemma for_each_establishes {A} (items : list A) (body : A -> M S unit)
    (Q : A -> S -> Prop) :
  (forall x, preserves R (body x)) ->
  (forall x st st', body x st = (inr tt, st') -> Q x st') ->
  (forall x st st', Q x st -> R st st' -> Q x st') ->
  forall st st', for_each items body st = (inr tt, st') ->
  forall x, x ∈ items -> Q x st'.
Proof.
  intros Hb Hq Hstable. induction items as [|y items IH];
    intros st st' H x Hx; [inversion Hx|].
  cbn [for_each] in H. apply bind_inr in H as ([] & st1 & H1 & H2).
  apply elem_of_cons in Hx as [->|Hx].
  - eapply Hstable; [eapply Hq; eauto|].
    eapply (preserves_for_each items body Hb); eauto.
  - eapply IH; eauto.
Qed.

End Preserves.

Lemma extends_refl c T st : extends c T st st.
Proof.
  repeat split; auto. intros cs H. exists cs. auto.
Qed.

Lemma extends_trans c T st1 st2 st3 :
  extends c T st1 st2 -> extends c T st2 st3 -> extends c T st1 st3.
Proof.
  intros (A1 & A2 & A3 & A4 & A5) (B1 & B2 & B3 & B4 & B5).
  repeat split; try congruence.
  - intros cs H. destruct (A3 cs H) as (cs' & H1 & H2 & H3).
    destruct (B3 cs' H1) as (cs'' & G1 & G2 & G3).
    exists cs''. repeat split; auto; congruence.
  - intros tname. etrans; eauto.
  - intros tname H. rewrite B5, A5; auto.
Qed.

Lemma extends_weaken c T T' st st' :
  T ⊆ T' -> extends c T st st' -> extends c T' st st'.
Proof.
  intros Hsub (A1 & A2 & A3 & A4 & A5).
  split; [auto|]. split; [auto|]. split; [auto|]. split; [auto|].
  intros tname H. apply A5. intros Hin. apply H. now apply Hsub.
Qed.

Lemma extends_world_op {A} c T (m : M World A) :
  (forall w r w', m w = (r, w') -> forall self, extends c T (self, w) (self, w')) ->
  preserves (extends c T) (world_op m).
Proof.
  intros H st r st' Hrun. apply world_op_inv in Hrun as [Hrun Hself].
  destruct st as [self w], st' as [self' w']. cbn in *. subst. eauto.
Qed.

Lemma extends_select_id c T db tname columns params :
  preserves (extends c T) (world_op (execute_select_id db tname columns params)).
Proof.
  apply extends_world_op. intros w r w' H self.
  apply execute_select_id_inv in H as [-> _]. apply extends_refl.
Qed.

Lemma extends_insert c tname columns params :
  preserves (extends c [tname]) (world_op (execute_insert c tname columns params)).
Proof.
  apply extends_world_op. intros w r w' H self.
  apply execute_insert_inv in H. destruct r as [e|rid].
  { subst. apply extends_refl. }
  destruct H as (cs & t & values & H1 & H2 & H3 & H4 & H5 & ->).
  split; [reflexivity|]. split; [reflexivity|].
  split; [|split]; cbn [fst snd].
  - intros cs0 Hcs0. rewrite (with_txn_lookup _ _ _ _ H1).
    eexists. split; [reflexivity|]. cbn. split; [congruence|auto].
  - intros tname'. rewrite (with_txn_visible _ _ _ _ H1), (visible_view _ _ _ H1).
    destruct (decide (tname = tname')) as [<-|Hne].
    + rewrite table_rows_insert, (table_rows_prepare _ _ _ _ _ H3).
      cbn. now apply prefix_app_r.
    + now rewrite table_rows_insert_ne.
  - intros tname' Hn. rewrite (with_txn_visible _ _ _ _ H1), (visible_view _ _ _ H1).
    apply table_rows_insert_ne. intros ->. apply Hn. left.
Qed.

Lemma preserves_weaken {A} c T T' (m : M St A) :
  T ⊆ T' -> preserves (extends c T) m -> preserves (extends c T') m.
Proof.
  intros Hsub Hm st r st' H. eapply extends_weaken; eauto.
Qed.

Lemma extends_cursor c T c' :
  preserves (extends c T) (world_op (cursor c')).
Proof.
  apply extends_world_op. intros w r w' H self.
  unfold cursor, bind in H.
  destruct (open_connection c' w) as [[e|cs] w1] eqn:E;
    apply open_connection_inv in E as [-> _]; inversion H; subst;
    apply extends_refl.
Qed.

Create HintDb extends_db.

Ltac preserves_step :=
  repeat first
    [ solve [eauto with extends_db]
    | apply extends_select_id
    | apply extends_cursor
    | apply preserves_ret; [apply extends_refl]
    | apply preserves_raise; [apply extends_refl]
    | apply preserves_for_each; [apply extends_refl | apply extends_trans | intros ]
    | apply preserves_bind; [apply extends_trans | | intros ] ].

Lemma extends__get_maybe_new_id c tname columns :
  preserves (extends c [tname]) (_get_maybe_new_id c tname columns).
Proof.
  unfold _get_maybe_new_id.
  apply preserves_bind; [apply extends_trans| |intros ids].
  - apply extends_select_id.
  - destruct ids; [apply extends_insert|].
    apply preserves_ret. apply extends_refl.
Qed.

Lemma extends__get_maybe_new_id_in c T tname columns :
  tname ∈ T -> preserves (extends c T) (_get_maybe_new_id c tname columns).
Proof.
  intros H. eapply preserves_weaken; [|apply extends__get_maybe_new_id].
  intros x Hx. apply list_elem_of_singleton in Hx. now subst.
Qed.

Lemma extends_insert_in c T tname columns params :
  tname ∈ T ->
  preserves (extends c T) (world_op (execute_insert c tname columns params)).
Proof.
  intros H. eapply preserves_weaken; [|apply extends_insert].
  intros x Hx. apply list_elem_of_singleton in Hx. now subst.
Qed.

#[local] Hint Resolve extends__get_maybe_new_id_in extends_insert_in : extends_db.
#[local] Hint Extern 1 (_ ∈ _) => compute_done : extends_db.

Lemma extends_convert_ts c T ts : preserves (extends c T) (convert_ts ts).
Proof.
  unfold convert_ts. destruct ts as [ts|]; [|preserves_step].
  destruct (_ && _); preserves_step.
Qed.

Lemma extends_dimension_ids getcwd c crec :
  preserves (extends c dimension_tables)
    (command_id <- _get_maybe_new_command_id c (Model.command crec) ;;
     directory_id <- _get_maybe_new_directory_id getcwd c (Model.cwd crec) ;;
     terminal_id <- _get_maybe_new_terminal_id c (Model.terminal crec) ;;
     ret (command_id, directory_id, terminal_id)).
Proof.
  unfold _get_maybe_new_command_id, _get_maybe_new_directory_id,
    _get_maybe_new_terminal_id, dimension_tables.
  destruct (Model.command crec), (Model.cwd crec), (Model.terminal crec);
    preserves_step.
Qed.

Lemma extends__insert_environ c ch_id environ :
  preserves (extends c environ_tables) (_insert_environ c ch_id environ).
Proof.
  unfold _insert_environ, environ_tables.
  destruct environ as [[|nv items]|]; [preserves_step| |preserves_step].
  apply preserves_for_each; [apply extends_refl|apply extends_trans|].
  intros x. destruct (_ || _); preserves_step.
Qed.

Lemma extends__insert_pipe_status c ch_id pipe_status :
  preserves (extends c ["pipe_status_map"]) (_insert_pipe_status c ch_id pipe_status).
Proof.
  unfold _insert_pipe_status.
  destruct pipe_status as [[|code codes]|]; preserves_step.
Qed.

(** ** Rows that an insert leaves behind *)

Lemma key_of_new_row t columns values :
  NoDup columns ->
  length values = length columns ->
  (forall c, c ∈ columns -> String.eqb c "id" = false) ->
  key_of columns (new_row t columns values) = values.
Proof.
  intros Hnd Hlen Hid. apply list_eq. intros j.
  unfold key_of. rewrite list_lookup_fmap.
  destruct (columns !! j) as [c|] eqn:Ec.
  - destruct (values !! j) as [v|] eqn:Ev.
    + cbn. f_equal. unfold column_value.
      rewrite (Hid c) by (eapply list_elem_of_lookup_2; eauto).
      cbn [new_row row_fields].
      erewrite (elem_of_list_to_map_1 (M := gmap string)); [reflexivity| |].
      * rewrite fst_zip by lia. exact Hnd.
      * apply list_elem_of_lookup. exists j.
        apply lookup_zip_with_Some. eauto.
    + apply lookup_ge_None in Ev. apply lookup_lt_Some in Ec. lia.
  - cbn. symmetry. apply lookup_ge_None. apply lookup_ge_None in Ec. lia.
Qed.

Lemma insert_lands c tname columns params st rid st' :
  NoDup columns ->
  length params = length columns ->
  world_op (execute_insert c tname columns params) st = (inr rid, st') ->
  exists values r,
    bind_params params = inr values /\ row_id r = rid
    /\ key_of columns r = values
    /\ table_rows (visible st'.2 c) tname
       = table_rows (visible st.2 c) tname ++ [r].
Proof.
  intros Hnd Hlen H. apply world_op_inv in H as [H _].
  apply execute_insert_inv in H
    as (cs & t & values & H1 & H2 & H3 & H4 & H5 & H6).
  exists values, (new_row t columns values). split; [exact H4|].
  split; [now rewrite H5|]. split.
  - apply key_of_new_row; auto.
    + rewrite (bind_params_length _ _ H4). exact Hlen.
    + eapply prepare_assignable_not_id; eauto.
  - rewrite H6, (with_txn_visible _ _ _ _ H1), table_rows_insert.
    rewrite (visible_view _ _ _ H1), (table_rows_prepare _ _ _ _ _ H3).
    reflexivity.
Qed.

(** A row seen before a step that only adds rows is seen after it. *)
Lemma extends_elem c T st st' tname (r : row) :
  extends c T st st' ->
  r ∈ table_rows (visible st.2 c) tname ->
  r ∈ table_rows (visible st'.2 c) tname.
Proof.
  intros (_ & _ & _ & Hp & _) Hr.
  destruct (Hp tname) as [k ->]. apply elem_of_app. now left.
Qed.

Lemma extends_rows c T st st' tname :
  extends c T st st' -> tname ∉ T ->
  table_rows (visible st'.2 c) tname = table_rows (visible st.2 c) tname.
Proof. intros (_ & _ & _ & _ & H). apply H. Qed.

(** Inserting the fact row: exactly one row joins [command_history], with the
    id that is returned; the dimension tables may have gained rows. *)
Lemma _insert_command_history_lands getcwd c crec st ch_id st' :
  _insert_command_history getcwd c crec st = (inr ch_id, st') ->
  extends c (dimension_tables ++ ["command_history"]) st st'
  /\ exists ch,
       row_id ch = ch_id
       /\ table_rows (visible st'.2 c) "command_history"
          = table_rows (visible st.2 c) "command_history" ++ [ch].
Proof.
  intros H. unfold _insert_command_history in H.
  apply bind_inr in H as (command_id & st1 & H1 & H).
  apply bind_inr in H as (directory_id & st2 & H2 & H).
  apply bind_inr in H as (terminal_id & st3 & H3 & H).
  apply bind_inr in H as (start_time & st4 & H4 & H).
  apply bind_inr in H as (stop_time & st5 & H5 & H).
  assert (extends c dimension_tables st st5) as Hd.
  { pose proof (extends_dimension_ids getcwd c crec st) as Hd.
    unfold bind in Hd. rewrite H1, H2, H3 in Hd. cbn in Hd.
    eapply extends_trans; [eapply Hd; reflexivity|].
    eapply extends_trans; eapply extends_convert_ts; eauto. }
  split.
  - eapply extends_trans.
    + eapply extends_weaken; [|exact Hd]. apply sublist_subseteq, sublist_inserts_r. reflexivity.
    + eapply (extends_insert_in c); [|exact H]. compute_done.
  - apply insert_lands in H as (values & ch & G1 & G2 & G3 & G4);
      [|compute_done|reflexivity].
    exists ch. split; [exact G2|]. rewrite G4. f_equal.
    apply (extends_rows _ _ _ _ _ Hd). compute_done.
Qed.

Lemma bind_param_int z v : bind_param (PInt z) = inr v -> v = VInt z.
Proof. cbn. destruct (_ && _); congruence. Qed.

Lemma bind_params_cons v vs values :
  bind_params (v :: vs) = inr values ->
  exists x xs, bind_param v = inr x /\ bind_params vs = inr xs
               /\ values = x :: xs.
Proof.
  cbn. destruct (bind_param v) as [|x]; [discriminate|].
  destruct (bind_params vs) as [|xs]; [discriminate|].
  intros H; inversion H; subst. eauto.
Qed.

Lemma enumerate_lookup {A} (items : list A) i x :
  items !! i = Some x -> (i, x) ∈ enumerate items.
Proof.
  intros H. apply list_elem_of_lookup. exists i. unfold enumerate.
  apply lookup_zip_with_Some. exists i, x. repeat split; [|exact H].
  apply lookup_seq. split; [reflexivity|]. eapply lookup_lt_Some; eauto.
Qed.

(** After the environment loop every pair without [None] has its variable
    row and its row in the join table. *)
Lemma _insert_environ_lands c ch_id environ st st' :
  _insert_environ c ch_id environ st = (inr tt, st') ->
  forall name value,
    (name, value) ∈ default [] environ -> name <> PNone -> value <> PNone ->
    exists ev m,
      ev ∈ table_rows (visible st'.2 c) "environment_variable"
      /\ bind_params [name; value] = inr (key_of environ_columns ev)
      /\ m ∈ table_rows (visible st'.2 c) "command_environment_map"
      /\ key_of ["ch_id"; "ev_id"] m = [VInt ch_id; VInt (row_id ev)].
Proof.
  intros H name value Hin Hname Hvalue.
  unfold _insert_environ in H.
  destruct environ as [[|nv items]|]; [inversion Hin| |inversion Hin].
  cbn [default] in Hin.
  set (Q := fun (x : pyval * pyval) (s : St) =>
    x.1 <> PNone -> x.2 <> PNone ->
    exists ev m,
      ev ∈ table_rows (visible s.2 c) "environment_variable"
      /\ bind_params [x.1; x.2] = inr (key_of environ_columns ev)
      /\ m ∈ table_rows (visible s.2 c) "command_environment_map"
      /\ key_of ["ch_id"; "ev_id"] m = [VInt ch_id; VInt (row_id ev)]).
  refine (for_each_establishes (extends c environ_tables)
            (extends_refl _ _) (extends_trans _ _) _ _ Q _ _ _ _ _ H
            (name, value) Hin Hname Hvalue).
  - intros x. destruct (is_None x.1 || is_None x.2);
      unfold environ_tables; preserves_step.
  - intros x s s' Hx Hn1 Hn2.
    assert (is_None x.1 || is_None x.2 = false) as E.
    { destruct x as [[] []]; cbn in *; congruence. }
    rewrite E in Hx.
    apply bind_inr in Hx as (ev_id & s1 & Hx1 & Hx).
    apply bind_inr in Hx as (rid & s2 & Hx2 & Hx).
    inversion Hx; subst; clear Hx.
    apply _get_maybe_new_id_keys in Hx1 as [_ (ev & values & G1 & G2 & G3 & G4)];
      [|compute_done|].
    2:{ cbn. intros v Hv. apply elem_of_cons in Hv as [->|Hv]; [exact Hn1|].
        apply list_elem_of_singleton in Hv as ->. exact Hn2. }
    pose proof (extends_insert c _ _ _ _ _ _ Hx2) as Hext.
    apply insert_lands in Hx2 as (values' & m & K1 & K2 & K3 & K4);
      [|compute_done|reflexivity].
    exists ev, m. split; [eapply extends_elem; eauto|].
    split; [rewrite <- G4 in G3; exact G3|].
    split; [rewrite K4; apply elem_of_app; right; left|].
    rewrite K3.
    apply bind_params_cons in K1 as (x1 & xs1 & B1 & B2 & ->).
    apply bind_params_cons in B2 as (x2 & xs2 & B2 & B3 & ->).
    inversion B3; subst.
    apply bind_param_int in B1, B2. congruence.
  - intros x s s' Hq Hext Hn1 Hn2.
    destruct (Hq Hn1 Hn2) as (ev & m & G1 & G2 & G3 & G4).
    exists ev, m. repeat split; auto; eapply extends_elem; eauto.
Qed.

(** After the pipe-status loop every position has its row. *)
Lemma _insert_pipe_status_lands c ch_id pipe_status st st' :
  _insert_pipe_status c ch_id pipe_status st = (inr tt, st') ->
  forall i code,
    default [] pipe_status !! i = Some code ->
    exists p v,
      p ∈ table_rows (visible st'.2 c) "pipe_status_map"
      /\ bind_param code = inr v
      /\ key_of pipe_status_columns p = [VInt ch_id; VInt (Z.of_nat i); v].
Proof.
  intros H i code Hi.
  unfold _insert_pipe_status in H.
  destruct pipe_status as [[|code0 codes]|]; [inversion Hi| |inversion Hi].
  cbn [default] in Hi. apply enumerate_lookup in Hi.
  set (Q := fun (x : nat * pyval) (s : St) =>
    exists p v,
      p ∈ table_rows (visible s.2 c) "pipe_status_map"
      /\ bind_param x.2 = inr v
      /\ key_of pipe_status_columns p = [VInt ch_id; VInt (Z.of_nat x.1); v]).
  refine (for_each_establishes (extends c ["pipe_status_map"])
            (extends_refl _ _) (extends_trans _ _) _ _ Q _ _ _ _ _ H
            (i, code) Hi).
  - intros x. preserves_step.
  - intros x s s' Hx.
    apply bind_inr in Hx as (rid & s2 & Hx2 & Hx).
    inversion Hx; subst; clear Hx.
    apply insert_lands in Hx2 as (values' & p & K1 & K2 & K3 & K4);
      [|compute_done|reflexivity].
    apply bind_params_cons in K1 as (x1 & xs1 & B1 & B2 & ->).
    apply bind_params_cons in B2 as (x2 & xs2 & B2 & B3 & ->).
    apply bind_params_cons in B3 as (x3 & xs3 & B3 & B4 & ->).
    inversion B4; subst.
    apply bind_param_int in B1, B2. subst.
    exists p, x3. split; [rewrite K4; apply elem_of_app; right; left|].
    split; [exact B3|exact K3].
  - intros x s s' (p & v & G1 & G2 & G3) Hext.
    exists p, v. repeat split; auto. eapply extends_elem; eauto.
Qed.

(** ** The import as a whole *)

Lemma commit_inv c w r w' :
  commit c w = (r, w') ->
  match r with
  | inl _ => w' = w
  | inr _ =>
      exists cs,
        conns w !! c = Some cs /\ conn_open cs = true
        /\ default ∅ (files w' !! conn_path cs) = view w cs
        /\ forall p, p <> conn_path cs -> files w' !! p = files w !! p
  end.
Proof.
  unfold commit, bind.
  destruct (open_connection c w) as [[e|cs] w1] eqn:E;
    apply open_connection_inv in E as [-> E].
  - intros H; inversion H; subst. reflexivity.
  - destruct E as [E1 E2]. unfold view.
    destruct (conn_txn cs) as [s|] eqn:Et; intros H; inversion H; subst;
      exists cs; (split; [exact E1|]); (split; [exact E2|]); cbn.
    + rewrite lookup_insert_eq, Et. split; [reflexivity|].
      intros p Hp. now rewrite lookup_insert_ne.
    + rewrite Et. split; reflexivity.
Qed.

Lemma cursor_inv c st r st' :
  world_op (cursor c) st = (r, st') ->
  st' = st /\
  match r with
  | inl _ => True
  | inr db => db = c /\ exists cs, conns st.2 !! c = Some cs /\ conn_open cs = true
  end.
Proof.
  intros H. apply world_op_inv in H as [H Hself].
  unfold cursor, bind in H.
  destruct (open_connection c st.2) as [[e|cs] w1] eqn:E;
    apply open_connection_inv in E as [-> E]; inversion H; subst.
  - split; [destruct st, st'; cbn in *; congruence|exact I].
  - split; [destruct st, st'; cbn in *; congruence|]. split; eauto.
Qed.

Lemma import_dict_unfold getcwd dct check_duplicate :
  import_dict getcwd dct check_duplicate
  = connection (import_body getcwd dct).
Proof.
  unfold import_dict, select_by_command_record. cbn [nonempty].
  now rewrite andb_false_r.
Qed.

Lemma extends__insert_command_history getcwd c crec :
  preserves (extends c (dimension_tables ++ ["command_history"]))
    (_insert_command_history getcwd c crec).
Proof.
  unfold _insert_command_history, _get_maybe_new_command_id,
    _get_maybe_new_directory_id, _get_maybe_new_terminal_id.
  destruct (Model.command crec), (Model.cwd crec), (Model.terminal crec);
    repeat first [apply extends_convert_ts | progress preserves_step].
Qed.

Lemma import_tables_incl_history :
  dimension_tables ++ ["command_history"] ⊆ import_tables.
Proof. intros x Hx. apply list_elem_of_In. apply list_elem_of_In in Hx. cbn in *. tauto. Qed.

Lemma import_tables_incl_environ : environ_tables ⊆ import_tables.
Proof. intros x Hx. apply list_elem_of_In. apply list_elem_of_In in Hx. cbn in *. tauto. Qed.

Lemma import_tables_incl_pipe : ["pipe_status_map"] ⊆ import_tables.
Proof. intros x Hx. apply list_elem_of_In. apply list_elem_of_In in Hx. cbn in *. tauto. Qed.

Lemma world_op_commit_inv c st r st' :
  world_op (commit c) st = (r, st') ->
  st'.1 = st.1 /\
  match r with
  | inl _ => st' = st
  | inr _ =>
      exists cs,
        conns st.2 !! c = Some cs /\ conn_open cs = true
        /\ default ∅ (files st'.2 !! conn_path cs) = view st.2 cs
        /\ forall p, p <> conn_path cs -> files st'.2 !! p = files st.2 !! p
  end.
Proof.
  intros H. apply world_op_inv in H as [H Hself]. split; [exact Hself|].
  apply commit_inv in H. destruct r; [|exact H].
  destruct st, st'; cbn in *; congruence.
Qed.


(** A block that returns has committed every row of the record. *)
Lemma import_body_succeeds getcwd crec c st st2 :
  import_body getcwd crec c st = (inr tt, st2) ->
  exists cs,
    conns st.2 !! c = Some cs /\ conn_open cs = true /\ st2.1 = st.1
    /\ (forall p, p <> conn_path cs -> files st2.2 !! p = files st.2 !! p)
    /\ landed crec (table_rows (visible st.2 c) "command_history")
         (committed_rows st2.2 (conn_path cs)).
Proof.
  unfold import_body. intros H.
  apply bind_inr in H as (db & st1 & H1 & H).
  apply cursor_inv in H1 as [-> [-> (cs & Hcs & Hopen)]].
  apply bind_inr in H as (ch_id & sa & Ha & H).
  apply bind_inr in H as ([] & sb & Hb & H).
  apply bind_inr in H as ([] & sc & Hc & H).
  pose proof (extends__insert_environ _ _ _ _ _ _ Hb) as Eb.
  pose proof (extends__insert_pipe_status _ _ _ _ _ _ Hc) as Ec.
  apply _insert_command_history_lands in Ha as [Ea (ch & Hid & Hch)].
  pose proof (_insert_environ_lands _ _ _ _ _ Hb) as Lb.
  pose proof (_insert_pipe_status_lands _ _ _ _ _ Hc) as Lc.
  apply world_op_commit_inv in H as [Hself (cs' & Hcs' & _ & Hview & Hother)].
  assert (extends c import_tables st sc) as Eall.
  { eapply extends_trans;
      [eapply extends_weaken; [apply import_tables_incl_history|exact Ea]|].
    eapply extends_trans;
      [eapply extends_weaken; [apply import_tables_incl_environ|exact Eb]|].
    eapply extends_weaken; [apply import_tables_incl_pipe|exact Ec]. }
  destruct Eall as (Eself & Efiles & Econn & _ & _).
  destruct (Econn cs Hcs) as (cs'' & G1 & Gpath & _).
  assert (cs'' = cs') as -> by congruence.
  assert (forall tname, committed_rows st2.2 (conn_path cs) tname
                        = table_rows (visible sc.2 c) tname) as Hcommitted.
  { intros tname. unfold committed_rows.
    rewrite <- Gpath, Hview, (visible_view _ _ _ Hcs'). reflexivity. }
  exists cs. split; [exact Hcs|]. split; [exact Hopen|].
  split; [congruence|]. split.
  { intros p Hp. rewrite Hother by congruence. now rewrite Efiles. }
  exists ch. rewrite !Hcommitted. split; [|split].
  - rewrite (extends_rows _ _ _ _ _ Ec) by compute_done.
    rewrite (extends_rows _ _ _ _ _ Eb) by compute_done. exact Hch.
  - intros name value Hin Hn Hv.
    destruct (Lb name value Hin Hn Hv) as (ev & m & G2 & G3 & G4 & G5).
    exists ev, m. rewrite Hid.
    repeat split; auto; eapply extends_elem; eauto.
  - intros i code Hi. destruct (Lc i code Hi) as (p & v & G2 & G3 & G4).
    exists p, v. rewrite Hid. auto.
Qed.

Lemma connect_inv path w c w1 :
  connect path w = (inr c, w1) ->
  c = length (conns w)
  /\ (forall p tname, committed_rows w1 p tname = committed_rows w p tname)
  /\ visible w1 c = default ∅ (files w !! path).
Proof.
  unfold connect. intros H; inversion H; subst; clear H.
  split; [reflexivity|]. split.
  - intros p tname. unfold committed_rows. cbn.
    destruct (files w !! path) as [s|] eqn:E; [reflexivity|].
    destruct (decide (p = path)) as [->|Hne].
    + now rewrite lookup_insert_eq, E.
    + now rewrite lookup_insert_ne.
  - unfold visible. cbn. rewrite list_lookup_middle by reflexivity.
    unfold view. cbn.
    destruct (files w !! path) as [s|] eqn:E; [now rewrite E|].
    now rewrite lookup_insert_eq.
Qed.

Lemma committed_rows_files w w' :
  files w' = files w ->
  forall p tname, committed_rows w' p tname = committed_rows w p tname.
Proof. intros H p tname. unfold committed_rows. now rewrite H. Qed.

Lemma close_files c w : files (close c w).2 = files w.
Proof.
  destruct (close c w) as [r w'] eqn:E. now apply close_inv in E as (_ & E & _).
Qed.


(** An import that returns has committed every row of the record. *)
Lemma import_dict_succeeds getcwd dct check_duplicate st st' :
  import_dict getcwd dct check_duplicate st = (inr tt, st') ->
  landed dct (seen_rows st "command_history")
    (committed_rows st'.2 (store_path st)).
Proof.
  rewrite import_dict_unfold. intros H. apply connection_inv in H.
  unfold seen_rows, store_path.
  destruct (_db st.1) as [c|] eqn:E.
  - apply import_body_succeeds in H as (cs & Hcs & _ & _ & _ & Hl).
    rewrite Hcs. exact Hl.
  - destruct H as (w1 & st2 & Hconn & Hc & Hbody & Hw & Hclosed).
    apply import_body_succeeds in Hbody as (cs & Hcs & _ & _ & _ & Hl).
    cbn [fst snd] in *.
    assert (cs = {| conn_path := dbpath st.1; conn_open := true;
                    conn_txn := None |}) as ->
      by congruence.
    cbn [conn_path] in Hl.
    apply connect_inv in Hconn as (_ & _ & Hvis).
    rewrite Hvis in Hl.
    assert (forall tname, committed_rows st'.2 (dbpath st.1) tname
                          = committed_rows st2.2 (dbpath st.1) tname) as Hrows.
    { apply committed_rows_files. rewrite Hw. apply close_files. }
    destruct Hl as (ch & L1 & L2 & L3). exists ch.
    rewrite !Hrows. auto.
Qed.



(** C8: the duplicate lookup reports nothing for any record, so an import
    asked to check for duplicates runs exactly as one that is not; whenever
    it returns, one more fact row is committed, also for a record equal to
    one that is stored already. *)
Theorem duplicate_check_never_skips getcwd dct st :
  select_by_command_record dct = []
  /\ import_dict getcwd dct true st = import_dict getcwd dct false st
  /\ match import_dict getcwd dct true st with
     | (inr _, st') =>
         exists ch,
           committed_rows st'.2 (store_path st) "command_history"
           = seen_rows st "command_history" ++ [ch]
     | (inl _, _) => True
     end
  /\ (let w1 := (run_on_new_instance "0.1" "rash.db"
                   (import_dict getcwd record_A true) fresh_world).2 in
      let w2 := (run_on_new_instance "0.1" "rash.db"
                   (import_dict getcwd record_A true) w1).2 in
      length (committed_rows w1 "rash.db" "command_history") = 1%nat
      /\ length (committed_rows w2 "rash.db" "command_history") = 2%nat).
Proof.
  split; [reflexivity|]. split; [now rewrite !import_dict_unfold|]. split.
  - destruct (import_dict getcwd dct true st) as [[e|[]] st'] eqn:E; [exact I|].
    apply import_dict_succeeds in E as (ch & E & _). eauto.
  - vm_compute. auto.
Qed.

Lemma get_or_create_idempotent_witness :
  let columns := [("command", PStr "ls")] in
  let first := _get_maybe_new_id 1%nat "command_list" columns opened_store in
  NoDup columns.*1
  /\ (forall v, v ∈ columns.*2 -> v <> PNone)
  /\ first = (inr 1, first.2)
  /\ _get_maybe_new_id 1%nat "command_list" columns first.2 = (inr 1, first.2)
  /\ (unique_keys columns.*1 (table_rows (visible opened_store.2 1%nat) "command_list") ->
      unique_keys columns.*1 (table_rows (visible first.2.2 1%nat) "command_list"))
  /\ (exists r values,
        r ∈ table_rows (visible first.2.2 1%nat) "command_list" /\ row_id r = 1
        /\ bind_params columns.*2 = inr values
        /\ key_of columns.*1 r = values).
Proof.
  intros columns first.
  assert (NoDup columns.*1) as H1 by (apply NoDup_singleton).
  assert (forall v, v ∈ columns.*2 -> v <> PNone) as H2.
  { intros v Hv. apply list_elem_of_singleton in Hv. subst. discriminate. }
  assert (first = (inr 1, first.2)) as H3 by (vm_compute; reflexivity).
  split; [exact H1|]. split; [exact H2|]. split; [exact H3|].
  exact (get_or_create_idempotent 1%nat "command_list" columns opened_store 1
           first.2 H1 H2 H3).
Defined.

(** ** The root directory *)

(** C10: [normalize_directory] turns the root "/" into the empty string; a
    record with cwd "/" is therefore stored under the directory value "", an
    exact-directory search for "/" binds "" as well, and it finds that
    record. *)
Theorem root_directory_is_empty_string getcwd :
  normalize_directory getcwd "/" = ""
  /\ (forall db,
        _get_maybe_new_directory_id getcwd db (Some "/")
        = (i <- _get_maybe_new_id db "directory_list" [("directory", PStr "")] ;;
           ret (Some i)))
  /\ (forall n,
        (_compile_sql_search_command_record getcwd
           (exact_directory_search "/" n)).1.2
        = [PStr ""; PInt n])
  /\ (let w1 := (run_on_new_instance "0.1" "rash.db"
                   (import_dict getcwd record_root true) fresh_world).2 in
      column_of (committed_rows w1 "rash.db" "directory_list") "directory"
      = [VText ""]
      /\ (run_on_new_instance "0.1" "rash.db"
            (search_command_record getcwd (exact_directory_search "/" 10)) w1).1
         = inr [[("command", VText "cd"); ("cwd", VText "");
                 ("terminal", VNull); ("start", VDatetime 150);
                 ("stop", VNull); ("exit_code", VInt 0)]]).
Proof.
  split; [reflexivity|]. split; [reflexivity|]. split; [reflexivity|].
  vm_compute. auto.
Qed.

(** ** Paths that differ by a trailing separator *)

Lemma append_cons x (a b : string) : String x a +:+ b = String x (a +:+ b).
Proof. reflexivity. Qed.

Lemma append_nil (b : string) : "" +:+ b = b.
Proof. reflexivity. Qed.

Lemma append_assoc (a b c : string) : (a +:+ b) +:+ c = a +:+ (b +:+ c).
Proof.
  induction a as [|x a IH]; [reflexivity|].
  rewrite !append_cons. now rewrite IH.
Qed.

Lemma split_slash_nonempty s : Py.split_slash s <> [].
Proof.
  destruct s as [|c s]; cbn; [discriminate|].
  destruct (Ascii.eqb c "/"%char); [discriminate|].
  destruct (Py.split_slash s); discriminate.
Qed.

Lemma split_slash_trailing s :
  Py.split_slash (s +:+ "/") = Py.split_slash s ++ [""].
Proof.
  induction s as [|c s IH]; [reflexivity|].
  rewrite append_cons. cbn [Py.split_slash]. rewrite IH.
  destruct (Ascii.eqb c "/"%char); [reflexivity|].
  pose proof (split_slash_nonempty s).
  destruct (Py.split_slash s); [congruence|reflexivity].
Qed.

Lemma normpath_components_trailing slashes comps acc :
  fold_left (PosixPath.normpath_step slashes) (comps ++ [""]) acc
  = fold_left (PosixPath.normpath_step slashes) comps acc.
Proof. rewrite fold_left_app. reflexivity. Qed.

Lemma prefix_cons a p b s :
  String.prefix (String a p) (String b s) = Ascii.eqb a b && String.prefix p s.
Proof.
  change (String.prefix (String a p) (String b s))
    with (if ascii_dec a b then String.prefix p s else false).
  destruct (ascii_dec a b) as [->|Hne].
  - now rewrite Ascii.eqb_refl.
  - apply Ascii.eqb_neq in Hne. now rewrite Hne.
Qed.

Lemma prefix_nil_l s : String.prefix "" s = true.
Proof. now destruct s. Qed.

Lemma prefix_nil_r a p : String.prefix (String a p) "" = false.
Proof. reflexivity. Qed.

Lemma initial_slashes_trailing s :
  has_component_char s = true ->
  PosixPath.initial_slashes (s +:+ "/") = PosixPath.initial_slashes s.
Proof.
  unfold PosixPath.initial_slashes, Py.startswith.
  destruct s as [|a [|b [|c s]]]; cbn [has_component_char];
    rewrite ?append_cons, ?append_nil, ?prefix_cons, ?prefix_nil_l,
      ?prefix_nil_r, ?(Ascii.eqb_sym "/"%char);
    try discriminate;
    repeat match goal with
           | |- context [Ascii.eqb ?x "/"%char] =>
               destruct (Ascii.eqb x "/"%char)
           end; cbn; try reflexivity; try discriminate.
Qed.

Lemma normpath_unfold c s :
  PosixPath.normpath (String c s)
  = let slashes := PosixPath.initial_slashes (String c s) in
    let comps := fold_left (PosixPath.normpath_step slashes)
                   (Py.split_slash (String c s)) [] in
    Py.or_else (Py.times slashes "/" +:+ Py.join "/" comps) ".".
Proof. reflexivity. Qed.

Lemma normpath_trailing s :
  has_component_char s = true ->
  PosixPath.normpath (s +:+ "/") = PosixPath.normpath s.
Proof.
  intros H. destruct s as [|c s]; [discriminate|].
  rewrite append_cons, !normpath_unfold, <- append_cons. cbv zeta.
  rewrite initial_slashes_trailing by exact H.
  rewrite split_slash_trailing, normpath_components_trailing. reflexivity.
Qed.

Lemma has_component_char_app a b :
  has_component_char b = true -> has_component_char (a +:+ b) = true.
Proof.
  intros H. induction a as [|x a IH]; [exact H|].
  rewrite append_cons. cbn. rewrite IH. apply orb_true_r.
Qed.

Lemma absolute_trailing getcwd p :
  has_component_char p = true ->
  absolute getcwd (p +:+ "/") = absolute getcwd p +:+ "/"
  /\ has_component_char (absolute getcwd p) = true.
Proof.
  intros H. destruct p as [|c p]; [discriminate|].
  unfold absolute, PosixPath.isabs, PosixPath.join, Py.startswith,
    PosixPath.sep.
  rewrite append_cons, !prefix_cons, !prefix_nil_l, <- append_cons.
  destruct (Ascii.eqb "/" c); cbn [andb]; [split; [reflexivity|exact H]|].
  destruct getcwd as [|g getcwd]; [split; [reflexivity|exact H]|].
  destruct (Py.ends_with_slash (String g getcwd)).
  - split; [|now apply has_component_char_app].
    now rewrite append_assoc.
  - split; [|now apply has_component_char_app, has_component_char_app].
    now rewrite !append_assoc.
Qed.

Lemma normalize_directory_trailing getcwd p :
  has_component_char p = true ->
  normalize_directory getcwd (p +:+ "/") = normalize_directory getcwd p.
Proof.
  intros H. unfold normalize_directory, PosixPath.abspath.
  fold (absolute getcwd (p +:+ "/")). fold (absolute getcwd p).
  destruct (absolute_trailing getcwd p H) as [-> H'].
  now rewrite normpath_trailing.
Qed.

Lemma _get_maybe_new_directory_id_same getcwd db p q st i st' :
  normalize_directory getcwd p = normalize_directory getcwd q ->
  _get_maybe_new_directory_id getcwd db (Some p) st = (inr i, st') ->
  _get_maybe_new_directory_id getcwd db (Some q) st' = (inr i, st').
Proof.
  intros Hn H. unfold _get_maybe_new_directory_id in *. rewrite <- Hn.
  apply bind_inr in H as (j & st1 & H1 & H). inversion H; subst; clear H.
  apply _get_maybe_new_id_again in H1.
  - now rewrite (bind_run _ _ _ _ _ H1).
  - apply NoDup_singleton.
  - intros v Hv. apply list_elem_of_singleton in Hv. subst. discriminate.
Qed.

(** C7, as amended: two paths of which one is the other followed by a
    separator, the shorter holding a character other than the separator, and
    two paths with the same absolute resolution, have the same normal form,
    so resolving one after the other yields the same Directory id; "/a/b/"
    and "/a/b" are such a pair. *)
Theorem directory_ids_agree getcwd db p q st i st' :
  (q = p +:+ "/" /\ has_component_char p = true)
  \/ (p = q +:+ "/" /\ has_component_char q = true)
  \/ PosixPath.abspath getcwd p = PosixPath.abspath getcwd q ->
  _get_maybe_new_directory_id getcwd db (Some p) st = (inr i, st') ->
  normalize_directory getcwd p = normalize_directory getcwd q
  /\ _get_maybe_new_directory_id getcwd db (Some q) st' = (inr i, st')
  /\ normalize_directory getcwd "/a/b/" = normalize_directory getcwd "/a/b".
Proof.
  intros Hpq H.
  assert (normalize_directory getcwd p = normalize_directory getcwd q) as Hn.
  { destruct Hpq as [[-> Hp]|[[-> Hq]|Habs]].
    - symmetry. now apply normalize_directory_trailing.
    - now apply normalize_directory_trailing.
    - unfold normalize_directory. now rewrite Habs. }
  split; [exact Hn|]. split; [|reflexivity].
  eapply _get_maybe_new_directory_id_same; eauto.
Qed.

Lemma directory_ids_agree_witness :
  let first := _get_maybe_new_directory_id "/home" 1%nat (Some "/a/b")
                 opened_store in
  (("/a/b/" = "/a/b" +:+ "/" /\ has_component_char "/a/b" = true)
   \/ ("/a/b" = "/a/b/" +:+ "/" /\ has_component_char "/a/b/" = true)
   \/ PosixPath.abspath "/home" "/a/b" = PosixPath.abspath "/home" "/a/b/")
  /\ first = (inr (Some 1), first.2)
  /\ normalize_directory "/home" "/a/b" = normalize_directory "/home" "/a/b/"
  /\ _get_maybe_new_directory_id "/home" 1%nat (Some "/a/b/") first.2
     = (inr (Some 1), first.2)
  /\ normalize_directory "/home" "/a/b/" = normalize_directory "/home" "/a/b".
Proof.
  intros first.
  assert (("/a/b/" = "/a/b" +:+ "/" /\ has_component_char "/a/b" = true)
          \/ ("/a/b" = "/a/b/" +:+ "/" /\ has_component_char "/a/b/" = true)
          \/ PosixPath.abspath "/home" "/a/b" = PosixPath.abspath "/home" "/a/b/")
    as H1 by (left; split; reflexivity).
  assert (first = (inr (Some 1), first.2)) as H2 by (vm_compute; reflexivity).
  split; [exact H1|]. split; [exact H2|].
  exact (directory_ids_agree "/home" 1%nat "/a/b" "/a/b/" opened_store
           (Some 1) first.2 H1 H2).
Defined.

(** C7, as stated, fails: "/" and "//" differ only by a trailing separator,
    yet they are normalised to "" and to "/" and are given two Directory
    ids. *)
Lemma root_and_double_slash_get_two_ids :
  "//" = "/" +:+ "/"
  /\ normalize_directory "/home" "/" = ""
  /\ normalize_directory "/home" "//" = "/"
  /\ match _get_maybe_new_directory_id "/home" 1%nat (Some "/") opened_store with
     | (inr (Some i), st1) =>
         match _get_maybe_new_directory_id "/home" 1%nat (Some "//") st1 with
         | (inr (Some j), _) => i = 1 /\ j = 2
         | _ => False
         end
     | _ => False
     end.
Proof. vm_compute. auto. Qed.

(** ** Export dispatch *)

Lemma get_exporter_unsupported export_bash format w :
  format ∉ SUPPORTED_FORMATS ->
  get_exporter export_bash format w
  = (inl (ValueError (unsupported_message format)), w).
Proof.
  intros H. unfold get_exporter, exporters. cbn [List.find fst].
  destruct (String.eqb "bash" format) eqn:E.
  - apply String.eqb_eq in E. subst. exfalso. apply H. left.
  - reflexivity.
Qed.

(** C9, as amended: a format outside the supported set is rejected by the
    dispatch with a message naming it and the supported formats; the exporter
    does not run and nothing is written.  By then [export_run] has opened the
    store and, unless the sink is the standard output, has opened the output
    file, which is thereby created or emptied, and which it closes again. *)
Theorem unsupported_format_rejected version db_path export_bash format output w :
  format ∉ SUPPORTED_FORMATS ->
  get_exporter export_bash format w
  = (inl (ValueError (unsupported_message format)), w)
  /\ match __init__ version db_path w with
     | (inl e, w1) =>
         export_run version db_path export_bash format output w = (inl e, w1)
     | (inr _, w1) =>
         export_run version db_path export_bash format output w
         = (inl (ValueError (unsupported_message format)),
            sink_opened_and_closed output w1)
         /\ stdout (sink_opened_and_closed output w1) = stdout w1
         /\ files (sink_opened_and_closed output w1) = files w1
         /\ textfiles (sink_opened_and_closed output w1)
            = (if String.eqb output "-" then textfiles w1
               else <[output := []]> (textfiles w1))
     end.
Proof.
  intros H. split; [now apply get_exporter_unsupported|].
  unfold export_run, bind.
  destruct (__init__ version db_path w) as [[e|db] w1]; [reflexivity|].
  unfold sink_opened_and_closed.
  destruct (String.eqb output "-") eqn:E; cbn [negb].
  - unfold ret at 1. unfold finally, bind.
    rewrite get_exporter_unsupported by exact H. cbn. auto.
  - unfold open_w at 1. unfold finally, bind.
    rewrite get_exporter_unsupported by exact H.
    unfold open_w. destruct (close_file _ _) as [r w2] eqn:Ec.
    unfold close_file in Ec. cbn [handles set_textfiles] in Ec.
    rewrite list_lookup_middle in Ec by reflexivity.
    inversion Ec; subst. cbn. auto.
Qed.

Lemma unsupported_format_rejected_witness :
  let w := world_with_output in
  let w1 := (__init__ "0.1" "rash.db" w).2 in
  ("zsh" ∉ SUPPORTED_FORMATS)
  /\ get_exporter no_exporter "zsh" w
     = (inl (ValueError (unsupported_message "zsh")), w)
  /\ export_run "0.1" "rash.db" no_exporter "zsh" "out.txt" w
     = (inl (ValueError (unsupported_message "zsh")),
        sink_opened_and_closed "out.txt" w1)
  /\ textfiles (sink_opened_and_closed "out.txt" w1)
     = <["out.txt" := []]> (textfiles w1).
Proof.
  intros w w1.
  assert ("zsh" ∉ SUPPORTED_FORMATS) as H by compute_done.
  split; [exact H|].
  pose proof (unsupported_format_rejected "0.1" "rash.db" no_exporter "zsh"
                "out.txt" w H) as [H1 H2].
  split; [exact H1|].
  destruct (__init__ "0.1" "rash.db" w) as [[e|db] w'] eqn:E.
  - exfalso. vm_compute in E. discriminate.
  - unfold w1. cbn [snd]. destruct H2 as (H2 & _ & _ & H3). split; [exact H2|exact H3].
Defined.

(** C9, as stated, fails: for the unsupported format "zsh" the request is
    rejected only after the store has been created and the output file has
    been opened for writing, which empties it. *)
Lemma unsupported_format_empties_the_output :
  let w := world_with_output in
  let res := export_run "0.1" "rash.db" no_exporter "zsh" "out.txt" w in
  res.1 = inl (ValueError "Unsupported format: zsh. Supported formats: bash")
  /\ textfiles w !! "out.txt" = Some ["#100"; "ls"]
  /\ textfiles res.2 !! "out.txt" = Some []
  /\ handles res.2 = [("out.txt", false)]
  /\ files w !! "rash.db" = None
  /\ is_Some (files res.2 !! "rash.db").
Proof.
  vm_compute. repeat split; eauto.
Qed.

(** ** Grouping by command text *)


Lemma sql_le_total a b : sql_le a b = true \/ sql_le b a = true.
Proof.
  destruct a, b; cbn; auto;
    try (destruct (Z.leb_spec z z0); [auto|right; apply Z.leb_le; lia]);
    try (destruct (Z.leb_spec ts ts0); [auto|right; apply Z.leb_le; lia]).
  apply String.leb_total.
Qed.

Lemma sql_le_trans a b c :
  sql_le a b = true -> sql_le b c = true -> sql_le a c = true.
Proof.
  destruct a, b, c; cbn; try discriminate; try reflexivity;
    rewrite ?Z.leb_le; try lia.
  intros H1 H2. apply Is_true_true. apply Is_true_true in H1, H2.
  change (String.le s s1). change (String.le s s0) in H1.
  change (String.le s0 s1) in H2. etrans; eauto.
Qed.

Global Instance by_start_time_total : Total by_start_time.
Proof. intros a b. apply sql_le_total. Qed.










Lemma NoDup_fmap_eq {A B} (f : A -> B) (l : list A) x y :
  NoDup (f <$> l) -> x ∈ l -> y ∈ l -> f x = f y -> x = y.
Proof.
  induction l as [|a l IH]; intros Hnd Hx Hy Hf; [inversion Hx|].
  rewrite fmap_cons in Hnd. apply NoDup_cons in Hnd as [Hna Hnd].
  apply elem_of_cons in Hx as [->|Hx]; apply elem_of_cons in Hy as [->|Hy];
    auto.
  - exfalso. apply Hna. rewrite Hf. apply list_elem_of_fmap. eauto.
  - exfalso. apply Hna. rewrite <- Hf. apply list_elem_of_fmap. eauto.
Qed.





(** ** Searching with the unique flag *)


Lemma execute_search_inv cur stmt params w r w' :
  execute_search cur stmt params w = (r, w') ->
  w' = w /\
  forall rows, r = inr rows ->
    exists cs values,
      conns w !! cur = Some cs /\ conn_open cs = true
      /\ bind_params params = inr values
      /\ store_search (view w cs) stmt values = inr rows.
Proof.
  unfold execute_search, bind.
  destruct (open_connection cur w) as [[e|cs] w1] eqn:E;
    apply open_connection_inv in E as [-> E].
  - intros H; inversion H; subst. split; [reflexivity|discriminate].
  - destruct E as [E1 E2].
    destruct (bind_params params) as [e|values] eqn:Eb.
    { intros H; inversion H; subst. split; [reflexivity|discriminate]. }
    unfold lift_result.
    destruct (store_search (view w cs) stmt values) as [e|rows0] eqn:Es;
      intros H; inversion H; subst; (split; [reflexivity|]); [discriminate|].
    intros rows Hr; inversion Hr; subst. eauto 10.
Qed.

Lemma search_command_record_unfold getcwd kwds :
  search_command_record getcwd kwds = connection (search_body getcwd kwds).
Proof.
  unfold search_command_record, search_body.
  destruct (_compile_sql_search_command_record getcwd kwds) as [[sql params] ks]
    eqn:E.
  assert (ks = keys) as ->.
  { unfold _compile_sql_search_command_record in E.
    destruct (add_or_match _ _ _ _) in E. now inversion E. }
  reflexivity.
Qed.








(** * Further properties *)

(** ** The stages of an import *)

(** An import that returns went through its three stages on one connection
    [c], from the state [st0] in which the instance saw what it saw before,
    and committed what the connection saw after the last stage. *)
Lemma import_dict_stages getcwd dct check_duplicate st st' :
  import_dict getcwd dct check_duplicate st = (inr tt, st') ->
  exists c st0 ch_id sa sb sc,
    (forall tname, table_rows (visible st0.2 c) tname = seen_rows st tname)
    /\ _insert_command_history getcwd c dct st0 = (inr ch_id, sa)
    /\ _insert_environ c ch_id (Model.environ dct) sa = (inr tt, sb)
    /\ _insert_pipe_status c ch_id (Model.pipestatus dct) sb = (inr tt, sc)
    /\ (forall tname, committed_rows st'.2 (store_path st) tname
                      = table_rows (visible sc.2 c) tname).
Proof.
  rewrite import_dict_unfold. intros H. apply connection_inv in H.
  assert (forall c st0 st2,
            import_body getcwd dct c st0 = (inr tt, st2) ->
            exists cs ch_id sa sb sc,
              conns st0.2 !! c = Some cs
              /\ _insert_command_history getcwd c dct st0 = (inr ch_id, sa)
              /\ _insert_environ c ch_id (Model.environ dct) sa = (inr tt, sb)
              /\ _insert_pipe_status c ch_id (Model.pipestatus dct) sb = (inr tt, sc)
              /\ (forall tname, committed_rows st2.2 (conn_path cs) tname
                                = table_rows (visible sc.2 c) tname)) as Hbody.
  { intros c st0 st2 Hb. unfold import_body in Hb.
    apply bind_inr in Hb as (db & st1 & H1 & Hb).
    apply cursor_inv in H1 as [-> [-> (cs & Hcs & Hopen)]].
    apply bind_inr in Hb as (ch_id & sa & Ha & Hb).
    apply bind_inr in Hb as ([] & sb & Hb1 & Hb).
    apply bind_inr in Hb as ([] & sc & Hc & Hb).
    exists cs, ch_id, sa, sb, sc. repeat (split; [assumption|]).
    pose proof (extends__insert_command_history _ _ _ _ _ _ Ha) as (_ & _ & E1 & _).
    pose proof (extends__insert_environ _ _ _ _ _ _ Hb1) as (_ & _ & E2 & _).
    pose proof (extends__insert_pipe_status _ _ _ _ _ _ Hc) as (_ & _ & E3 & _).
    destruct (E1 cs Hcs) as (cs1 & G1 & P1 & _).
    destruct (E2 cs1 G1) as (cs2 & G2 & P2 & _).
    destruct (E3 cs2 G2) as (cs3 & G3 & P3 & _).
    apply world_op_commit_inv in Hb as [_ (cs' & Hcs' & _ & Hview & _)].
    assert (cs' = cs3) as -> by congruence.
    intros tname. unfold committed_rows.
    replace (conn_path cs) with (conn_path cs3) by congruence.
    now rewrite Hview, (visible_view _ _ _ G3). }
  unfold seen_rows, store_path. destruct (_db st.1) as [c|] eqn:E.
  - destruct (Hbody _ _ _ H) as (cs & ch_id & sa & sb & sc & Hcs & G).
    exists c, st, ch_id, sa, sb, sc. rewrite Hcs. cbn [fmap option_fmap option_map default].
    split; [reflexivity|exact G].
  - destruct H as (w1 & st2 & Hconn & Hc & Hb & Hw & _).
    destruct (Hbody _ _ _ Hb) as (cs & ch_id & sa & sb & sc & Hcs & G1 & G2 & G3 & G4).
    cbn [fst snd] in Hcs.
    assert (cs = {| conn_path := dbpath st.1; conn_open := true;
                    conn_txn := None |}) as -> by congruence.
    cbn [conn_path] in G4.
    apply connect_inv in Hconn as (_ & _ & Hvis).
    eexists _, _, ch_id, sa, sb, sc. split; [|split; [exact G1|]].
    + intros tname. cbn [snd]. rewrite Hvis. reflexivity.
    + split; [exact G2|]. split; [exact G3|].
      intros tname. rewrite <- G4. apply committed_rows_files.
      rewrite Hw. apply close_files.
Qed.

(** ** The fact row *)

Lemma references_extends c T st st' tname column value fk :
  extends c T st st' ->
  references (table_rows (visible st.2 c) tname) column value fk ->
  references (table_rows (visible st'.2 c) tname) column value fk.
Proof.
  intros Hext. destruct value as [v|]; [|auto].
  intros (d & Hd & Hfk & Hv). exists d. split; [|auto].
  eapply extends_elem; eauto.
Qed.

(** The id a dimension resolver returns, as the engine stores it. *)
Lemma dimension_id_references c tname column value st i st1 :
  match value with
  | None => ret None
  | Some v =>
      bind (_get_maybe_new_id c tname [(column, PStr v)])
           (fun i => ret (Some i))
  end st = (inr i, st1) ->
  extends c [tname] st st1
  /\ forall fk, bind_param (id_param i) = inr fk ->
       references (table_rows (visible st1.2 c) tname) column value fk.
Proof.
  destruct value as [v|]; intros H.
  - apply bind_inr in H as (j & st2 & H1 & H). inversion H; subst; clear H.
    split; [eapply extends__get_maybe_new_id; eauto|].
    intros fk Hfk. apply bind_param_int in Hfk as ->.
    apply _get_maybe_new_id_keys in H1 as [_ (d & values & G1 & G2 & G3 & G4)].
    + exists d. split; [exact G1|]. split; [now rewrite G2|].
      rewrite <- G4 in G3. cbn in G3. now inversion G3.
    + apply NoDup_singleton.
    + intros x Hx. apply list_elem_of_singleton in Hx. subst. discriminate.
  - inversion H; subst. split; [apply extends_refl|].
    intros fk Hfk. cbn in Hfk. inversion Hfk. reflexivity.
Qed.

Lemma convert_ts_inv ts st r st' :
  convert_ts ts st = (inr r, st') ->
  st' = st /\ bind_param r = inr (stored_time ts).
Proof.
  unfold convert_ts. destruct ts as [t|].
  - destruct (_ && _); intros H; inversion H; subst. auto.
  - intros H; inversion H; subst. auto.
Qed.

(** The row [_insert_command_history] adds carries the record. *)
Lemma _insert_command_history_row getcwd c crec st ch_id sa :
  _insert_command_history getcwd c crec st = (inr ch_id, sa) ->
  exists ch,
    row_id ch = ch_id
    /\ table_rows (visible sa.2 c) "command_history"
       = table_rows (visible st.2 c) "command_history" ++ [ch]
    /\ carries getcwd crec (fun tname => table_rows (visible sa.2 c) tname) ch.
Proof.
  intros H. unfold _insert_command_history in H.
  apply bind_inr in H as (command_id & st1 & H1 & H).
  apply bind_inr in H as (directory_id & st2 & H2 & H).
  apply bind_inr in H as (terminal_id & st3 & H3 & H).
  apply bind_inr in H as (start_time & st4 & H4 & H).
  apply bind_inr in H as (stop_time & st5 & H5 & H).
  apply convert_ts_inv in H4 as [-> B4]. apply convert_ts_inv in H5 as [-> B5].
  apply (dimension_id_references c "command_list" "command") in H1 as [E1 R1].
  assert (_get_maybe_new_directory_id getcwd c (Model.cwd crec) st1
          = match normalize_directory getcwd <$> Model.cwd crec with
            | None => ret None
            | Some v => bind (_get_maybe_new_id c "directory_list"
                                [("directory", PStr v)])
                          (fun i => ret (Some i))
            end st1) as Hd by (destruct (Model.cwd crec); reflexivity).
  rewrite Hd in H2.
  apply (dimension_id_references c "directory_list" "directory") in H2 as [E2 R2].
  apply (dimension_id_references c "terminal_list" "terminal") in H3 as [E3 R3].
  pose proof (extends_insert c _ _ _ _ _ _ H) as E4.
  apply insert_lands in H as (values & ch & G1 & G2 & G3 & G4);
    [|compute_done|reflexivity].
  apply bind_params_cons in G1 as (v1 & vs1 & B1 & G1 & ->).
  apply bind_params_cons in G1 as (v2 & vs2 & B2 & G1 & ->).
  apply bind_params_cons in G1 as (v3 & vs3 & B3 & G1 & ->).
  apply bind_params_cons in G1 as (v4 & vs4 & B4' & G1 & ->).
  apply bind_params_cons in G1 as (v5 & vs5 & B5' & G1 & ->).
  apply bind_params_cons in G1 as (v6 & vs6 & B6 & G1 & ->).
  inversion G1; subst vs6; clear G1.
  unfold key_of in G3. rewrite !fmap_cons, fmap_nil in G3.
  injection G3 as C1 C2 C3 C4 C5 C6.
  exists ch. split; [exact G2|]. split.
  - rewrite G4. f_equal.
    rewrite (extends_rows _ _ _ _ "command_history" E3) by compute_done.
    rewrite (extends_rows _ _ _ _ "command_history" E2) by compute_done.
    now rewrite (extends_rows _ _ _ _ "command_history" E1) by compute_done.
  - unfold carries. rewrite C1, C2, C3, C4, C5, C6.
    split; [|split; [|split; [|split; [|split]]]].
    + eapply references_extends; [exact E4|].
      eapply references_extends; [exact E3|].
      eapply references_extends; [exact E2|]. now apply R1.
    + eapply references_extends; [exact E4|].
      eapply references_extends; [exact E3|]. now apply R2.
    + eapply references_extends; [exact E4|]. now apply R3.
    + congruence.
    + congruence.
    + exact B6.
Qed.

Lemma carries_extends getcwd crec c T st st' ch :
  extends c T st st' ->
  carries getcwd crec (fun tname => table_rows (visible st.2 c) tname) ch ->
  carries getcwd crec (fun tname => table_rows (visible st'.2 c) tname) ch.
Proof.
  intros Hext (H1 & H2 & H3 & H4).
  split; [eapply references_extends; eauto|].
  split; [eapply references_extends; eauto|].
  split; [eapply references_extends; eauto|exact H4].
Qed.

(** The fact row of an import, as committed. *)
Lemma import_commits_fact_row getcwd dct check_duplicate st st' :
  import_dict getcwd dct check_duplicate st = (inr tt, st') ->
  exists ch,
    committed_rows st'.2 (store_path st) "command_history"
    = seen_rows st "command_history" ++ [ch]
    /\ carries getcwd dct (committed_rows st'.2 (store_path st)) ch.
Proof.
  intros H.
  apply import_dict_stages in H
    as (c & st0 & ch_id & sa & sb & sc & Hseen & Ha & Hb & Hc & Hcommitted).
  pose proof (extends__insert_environ _ _ _ _ _ _ Hb) as Eb.
  pose proof (extends__insert_pipe_status _ _ _ _ _ _ Hc) as Ec.
  apply _insert_command_history_row in Ha as (ch & _ & Hrows & Hcar).
  exists ch. split.
  - rewrite Hcommitted, <- Hseen, <- Hrows.
    rewrite (extends_rows _ _ _ _ _ Ec) by compute_done.
    now rewrite (extends_rows _ _ _ _ _ Eb) by compute_done.
  - apply (carries_extends _ _ _ _ _ _ _ Eb) in Hcar.
    apply (carries_extends _ _ _ _ _ _ _ Ec) in Hcar.
    destruct Hcar as (C1 & C2 & C3 & C4).
    unfold carries. rewrite !Hcommitted. auto.
Qed.

(** X1: an import that returns has committed exactly one new fact row; its
    foreign keys are NULL where the record has no command, directory or
    terminal and otherwise name a row of the dimension table that holds the
    value (the directory in its normal form), its times are those of the
    record and its exit code the bound one. *)
Theorem import_fact_row getcwd dct check_duplicate st st' :
  import_dict getcwd dct check_duplicate st = (inr tt, st') ->
  exists ch,
    committed_rows st'.2 (store_path st) "command_history"
    = seen_rows st "command_history" ++ [ch]
    /\ carries getcwd dct (committed_rows st'.2 (store_path st)) ch.
Proof. apply import_commits_fact_row. Qed.

(** ** Rows of the two loops, counted *)

(** A loop whose turns each append one row to a table, or none, appends one
    row per kept item, in the order of the items. *)
Lemma for_each_appends {A} c T tname (items : list A) (body : A -> M St unit)
    (keep : A -> bool) (P : A -> St -> row -> Prop) :
  (forall x, preserves (extends c T) (body x)) ->
  (forall x st st' r, P x st r -> extends c T st st' -> P x st' r) ->
  (forall x st st', body x st = (inr tt, st') ->
     if keep x
     then exists r, table_rows (visible st'.2 c) tname
                    = table_rows (visible st.2 c) tname ++ [r]
                    /\ P x st' r
     else table_rows (visible st'.2 c) tname
          = table_rows (visible st.2 c) tname) ->
  forall st st', for_each items body st = (inr tt, st') ->
  exists rs, table_rows (visible st'.2 c) tname
             = table_rows (visible st.2 c) tname ++ rs
             /\ Forall2 (fun x r => P x st' r) (List.filter keep items) rs.
Proof.
  intros Hpres Hstable Hbody.
  induction items as [|x items IH]; intros st st' H.
  - inversion H; subst. exists []. rewrite app_nil_r. split; [reflexivity|constructor].
  - cbn [for_each] in H. apply bind_inr in H as ([] & st1 & H1 & H2).
    pose proof (preserves_for_each (extends c T) (extends_refl c T)
                  (extends_trans c T) items body Hpres _ _ _ H2) as Hext.
    destruct (IH _ _ H2) as (rs & Hrows & Hall).
    specialize (Hbody x st st1 H1). cbn [List.filter].
    destruct (keep x).
    + destruct Hbody as (r & Hr & Hp). exists (r :: rs). split.
      * rewrite Hrows, Hr, <- app_assoc. reflexivity.
      * constructor; [eapply Hstable; eauto|exact Hall].
    + exists rs. split; [now rewrite Hrows, Hbody|exact Hall].
Qed.

Lemma filter_all {A} (l : list A) : List.filter (fun _ => true) l = l.
Proof. induction l as [|x l IH]; cbn; congruence. Qed.

Lemma _insert_pipe_status_rows c ch_id pipe_status st st' :
  _insert_pipe_status c ch_id pipe_status st = (inr tt, st') ->
  exists rs,
    table_rows (visible st'.2 c) "pipe_status_map"
    = table_rows (visible st.2 c) "pipe_status_map" ++ rs
    /\ Forall2 (pipe_status_row ch_id) (enumerate (default [] pipe_status)) rs.
Proof.
  unfold _insert_pipe_status. intros H.
  assert (pipe_status = None \/ pipe_status = Some []
          \/ exists code codes, pipe_status = Some (code :: codes))
    as [->|[->|(code & codes & ->)]].
  { destruct pipe_status as [[|code codes]|]; eauto. }
  - inversion H; subst. exists []. rewrite app_nil_r. split; [reflexivity|constructor].
  - inversion H; subst. exists []. rewrite app_nil_r. split; [reflexivity|constructor].
  - change (default [] (Some (code :: codes))) with (code :: codes).
    rewrite <- (filter_all (enumerate (code :: codes))).
    refine (for_each_appends c ["pipe_status_map"] "pipe_status_map" _ _
              (fun _ => true) (fun ic _ r => pipe_status_row ch_id ic r)
              _ _ _ st st' H).
    + intros x. preserves_step.
    + auto.
    + intros x s s' Hx.
      apply bind_inr in Hx as (rid & s2 & Hx2 & Hx).
      inversion Hx; subst; clear Hx.
      apply insert_lands in Hx2 as (values' & p & K1 & K2 & K3 & K4);
        [|compute_done|reflexivity].
      apply bind_params_cons in K1 as (x1 & xs1 & B1 & B2 & ->).
      apply bind_params_cons in B2 as (x2 & xs2 & B2 & B3 & ->).
      apply bind_params_cons in B3 as (x3 & xs3 & B3 & B4 & ->).
      inversion B4; subst.
      apply bind_param_int in B1, B2. subst.
      exists p. split; [exact K4|]. exists x3. split; [exact B3|exact K3].
Qed.

Lemma _insert_environ_rows c ch_id environ st st' :
  _insert_environ c ch_id environ st = (inr tt, st') ->
  exists ms,
    table_rows (visible st'.2 c) "command_environment_map"
    = table_rows (visible st.2 c) "command_environment_map" ++ ms
    /\ Forall2 (environment_row ch_id
                  (table_rows (visible st'.2 c) "environment_variable"))
         (List.filter recorded_pair (default [] environ)) ms.
Proof.
  unfold _insert_environ. intros H.
  assert (environ = None \/ environ = Some []
          \/ exists nv items, environ = Some (nv :: items))
    as [->|[->|(nv & items & ->)]].
  { destruct environ as [[|nv items]|]; eauto. }
  - inversion H; subst. exists []. rewrite app_nil_r. split; [reflexivity|constructor].
  - inversion H; subst. exists []. rewrite app_nil_r. split; [reflexivity|constructor].
  - change (default [] (Some (nv :: items))) with (nv :: items).
    refine (for_each_appends c environ_tables "command_environment_map" _ _
              recorded_pair
              (fun x s m => environment_row ch_id
                 (table_rows (visible s.2 c) "environment_variable") x m)
              _ _ _ st st' H).
    + intros x. destruct (is_None x.1 || is_None x.2);
        unfold environ_tables; preserves_step.
    + intros x s s' m (ev & G1 & G2 & G3) Hext.
      exists ev. split; [eapply extends_elem; eauto|auto].
    + intros x s s' Hx. unfold recorded_pair.
      destruct (is_None x.1 || is_None x.2) eqn:E; cbn [negb].
      { now inversion Hx. }
      apply orb_false_iff in E as [E1 E2].
      apply bind_inr in Hx as (ev_id & s1 & Hx1 & Hx).
      apply bind_inr in Hx as (rid & s2 & Hx2 & Hx).
      inversion Hx; subst; clear Hx.
      pose proof (extends__get_maybe_new_id _ _ _ _ _ _ Hx1) as Hext1.
      apply _get_maybe_new_id_keys in Hx1 as [_ (ev & values & G1 & G2 & G3 & G4)];
        [|compute_done|].
      2:{ cbn. intros v Hv. apply elem_of_cons in Hv as [->|Hv].
          - destruct x as [[] ?]; cbn in *; congruence.
          - apply list_elem_of_singleton in Hv as ->.
            destruct x as [? []]; cbn in *; congruence. }
      pose proof (extends_insert c _ _ _ _ _ _ Hx2) as Hext2.
      apply insert_lands in Hx2 as (values' & m & K1 & K2 & K3 & K4);
        [|compute_done|reflexivity].
      exists m. split.
      * rewrite K4. f_equal.
        apply (extends_rows _ _ _ _ _ Hext1). compute_done.
      * exists ev. split; [eapply extends_elem; eauto|].
        split; [rewrite <- G4 in G3; exact G3|].
        rewrite K3.
        apply bind_params_cons in K1 as (x1 & xs1 & B1 & B2 & ->).
        apply bind_params_cons in B2 as (x2 & xs2 & B2 & B3 & ->).
        inversion B3; subst.
        apply bind_param_int in B1, B2. congruence.
Qed.

Lemma Forall2_environment_row_extends c T st st' ch_id items ms :
  extends c T st st' ->
  Forall2 (environment_row ch_id
             (table_rows (visible st.2 c) "environment_variable")) items ms ->
  Forall2 (environment_row ch_id
             (table_rows (visible st'.2 c) "environment_variable")) items ms.
Proof.
  intros Hext H. eapply Forall2_impl; [exact H|].
  intros nv m (ev & G1 & G2). exists ev. split; [eapply extends_elem; eauto|auto].
Qed.

(** X2: an import that returns has added to the pipe-status table exactly
    one row per position of the record's pipe status, in the order of the
    positions, each with the id of the new fact row, the zero-based position
    and the exit code at that position. *)
Theorem import_pipe_status_rows getcwd dct check_duplicate st st' :
  import_dict getcwd dct check_duplicate st = (inr tt, st') ->
  exists ch rs,
    committed_rows st'.2 (store_path st) "command_history"
    = seen_rows st "command_history" ++ [ch]
    /\ committed_rows st'.2 (store_path st) "pipe_status_map"
       = seen_rows st "pipe_status_map" ++ rs
    /\ Forall2 (pipe_status_row (row_id ch))
         (enumerate (default [] (Model.pipestatus dct))) rs.
Proof.
  intros H.
  apply import_dict_stages in H
    as (c & st0 & ch_id & sa & sb & sc & Hseen & Ha & Hb & Hc & Hcommitted).
  pose proof (extends__insert_command_history _ _ _ _ _ _ Ha) as Ea.
  pose proof (extends__insert_environ _ _ _ _ _ _ Hb) as Eb.
  pose proof (extends__insert_pipe_status _ _ _ _ _ _ Hc) as Ec.
  apply _insert_command_history_row in Ha as (ch & Hid & Hrows & _).
  apply _insert_pipe_status_rows in Hc as (rs & Hpipe & Hall).
  exists ch, rs. rewrite !Hcommitted, <- !Hseen, Hid. split; [|split; [|exact Hall]].
  - rewrite <- Hrows.
    rewrite (extends_rows _ _ _ _ _ Ec) by compute_done.
    now rewrite (extends_rows _ _ _ _ _ Eb) by compute_done.
  - rewrite Hpipe. f_equal.
    rewrite (extends_rows _ _ _ _ _ Eb) by compute_done.
    now rewrite (extends_rows _ _ _ _ _ Ea) by compute_done.
Qed.

(** X3: an import that returns has added to the environment map exactly one
    row per pair of the record's environment whose name and value are both
    not [None], in the order of the pairs, each linking the new fact row with
    a variable row that holds the pair; pairs with a [None] leave no row. *)
Theorem import_environment_rows getcwd dct check_duplicate st st' :
  import_dict getcwd dct check_duplicate st = (inr tt, st') ->
  exists ch ms,
    committed_rows st'.2 (store_path st) "command_history"
    = seen_rows st "command_history" ++ [ch]
    /\ committed_rows st'.2 (store_path st) "command_environment_map"
       = seen_rows st "command_environment_map" ++ ms
    /\ Forall2 (environment_row (row_id ch)
                  (committed_rows st'.2 (store_path st) "environment_variable"))
         (List.filter recorded_pair (default [] (Model.environ dct))) ms.
Proof.
  intros H.
  apply import_dict_stages in H
    as (c & st0 & ch_id & sa & sb & sc & Hseen & Ha & Hb & Hc & Hcommitted).
  pose proof (extends__insert_command_history _ _ _ _ _ _ Ha) as Ea.
  pose proof (extends__insert_environ _ _ _ _ _ _ Hb) as Eb.
  pose proof (extends__insert_pipe_status _ _ _ _ _ _ Hc) as Ec.
  apply _insert_command_history_row in Ha as (ch & Hid & Hrows & _).
  apply _insert_environ_rows in Hb as (ms & Hmap & Hall).
  exists ch, ms. rewrite !Hcommitted, <- !Hseen, Hid. split; [|split].
  - rewrite <- Hrows.
    rewrite (extends_rows _ _ _ _ _ Ec) by compute_done.
    now rewrite (extends_rows _ _ _ _ _ Eb) by compute_done.
  - rewrite (extends_rows _ _ _ _ _ Ec) by compute_done.
    rewrite Hmap. f_equal.
    now rewrite (extends_rows _ _ _ _ _ Ea) by compute_done.
  - eapply Forall2_environment_row_extends; eauto.
Qed.

Lemma import_fact_row_witness :
  let st := new_instance in
  let res := import_dict "/" record_piped true st in
  res = (inr tt, res.2)
  /\ exists ch,
       committed_rows res.2.2 (store_path st) "command_history"
       = seen_rows st "command_history" ++ [ch]
       /\ carries "/" record_piped (committed_rows res.2.2 (store_path st)) ch.
Proof.
  intros st res.
  assert (res = (inr tt, res.2)) as H by (vm_compute; reflexivity).
  split; [exact H|].
  exact (import_fact_row "/" record_piped true st res.2 H).
Defined.

Lemma import_pipe_status_rows_witness :
  let st := new_instance in
  let res := import_dict "/" record_piped false st in
  res = (inr tt, res.2)
  /\ exists ch rs,
       committed_rows res.2.2 (store_path st) "command_history"
       = seen_rows st "command_history" ++ [ch]
       /\ committed_rows res.2.2 (store_path st) "pipe_status_map"
          = seen_rows st "pipe_status_map" ++ rs
       /\ Forall2 (pipe_status_row (row_id ch))
            (enumerate (default [] (Model.pipestatus record_piped))) rs.
Proof.
  intros st res.
  assert (res = (inr tt, res.2)) as H by (vm_compute; reflexivity).
  split; [exact H|].
  exact (import_pipe_status_rows "/" record_piped false st res.2 H).
Defined.

Lemma import_environment_rows_witness :
  let st := new_instance in
  let res := import_dict "/home" record_piped true st in
  res = (inr tt, res.2)
  /\ exists ch ms,
       committed_rows res.2.2 (store_path st) "command_history"
       = seen_rows st "command_history" ++ [ch]
       /\ committed_rows res.2.2 (store_path st) "command_environment_map"
          = seen_rows st "command_environment_map" ++ ms
       /\ Forall2 (environment_row (row_id ch)
                     (committed_rows res.2.2 (store_path st)
                        "environment_variable"))
            (List.filter recorded_pair
               (default [] (Model.environ record_piped))) ms.
Proof.
  intros st res.
  assert (res = (inr tt, res.2)) as H by (vm_compute; reflexivity).
  split; [exact H|].
  exact (import_environment_rows "/home" record_piped true st res.2 H).
Defined.

(** ** The criteria of a search *)





Lemma eval_where_nil jr : eval_where [] jr = true.
Proof. reflexivity. Qed.












(** ** Searching without the unique flag *)

Global Instance by_start_time_trans : Transitive by_start_time.
Proof. intros a b c. apply sql_le_trans. Qed.






(** ** An instance after its first operation *)

Lemma preserves_impl {S A} (R R' : S -> S -> Prop) (m : M S A) :
  (forall s s', R s s' -> R' s s') -> preserves R m -> preserves R' m.
Proof. intros Himpl H st r st' Hm. apply Himpl. eapply H; eauto. Qed.

Lemma same_self_world_op {A} (m : M World A) : preserves same_self (world_op m).
Proof. intros st r st' H. now apply world_op_inv in H as [_ H]. Qed.

Lemma same_self_extends {A} c T (m : M St A) :
  preserves (extends c T) m -> preserves same_self m.
Proof. apply preserves_impl. now intros s s' (H & _). Qed.

Lemma same_self_trans st1 st2 st3 :
  same_self st1 st2 -> same_self st2 st3 -> same_self st1 st3.
Proof. unfold same_self. congruence. Qed.

Lemma same_self_import_body getcwd crec c :
  preserves same_self (import_body getcwd crec c).
Proof.
  unfold import_body.
  apply preserves_bind; [exact same_self_trans|apply same_self_world_op|intros db].
  apply preserves_bind; [exact same_self_trans| |intros ch_id].
  { eapply same_self_extends, extends__insert_command_history. }
  apply preserves_bind; [exact same_self_trans| |intros _].
  { eapply same_self_extends, extends__insert_environ. }
  apply preserves_bind; [exact same_self_trans| |intros _].
  { eapply same_self_extends, extends__insert_pipe_status. }
  apply same_self_world_op.
Qed.

(** The block of a search changes nothing at all. *)
Lemma search_body_state getcwd kwds c st r st' :
  search_body getcwd kwds c st = (r, st') -> st' = st.
Proof.
  unfold search_body, bind.
  destruct (world_op (cursor c) st) as [[e|cur] st1] eqn:E1;
    apply cursor_inv in E1 as [-> E1]; [now intros H; inversion H|].
  destruct (world_op (execute_search _ _ _) st) as [[e|rows] st2] eqn:E2;
    apply world_op_inv in E2 as [E2 Hself];
    apply execute_search_inv in E2 as [E2 _];
    intros H; inversion H; subst; destruct st, st'; cbn in *; congruence.
Qed.

Lemma same_self_search_body getcwd kwds c :
  preserves same_self (search_body getcwd kwds c).
Proof. intros st r st' H. apply search_body_state in H as ->. reflexivity. Qed.

(** After a scope that opened its own connection the instance still refers
    to that connection: the cleanup assigns the attribute [db], not [_db]. *)
Lemma connection_self {A} (body : conn_id -> M St A) st r st' :
  _db st.1 = None ->
  (forall c, preserves same_self (body c)) ->
  connection body st = (r, st') ->
  st'.1 = {| dbpath := dbpath st.1; _db := Some (length (conns st.2));
             db := Some tt |}.
Proof.
  intros Hnone Hbody.
  unfold connection, bind, get_self. cbn [fst snd]. rewrite Hnone.
  unfold finally, with__get_db, bind, get_self, world_op, assign__db,
    assign_db_None, connect. cbn [fst snd].
  unfold finally. cbn [fst snd].
  match goal with
  | |- context [body ?c ?s] => destruct (body c s) as [r2 st2] eqn:Eb
  end.
  cbn [fst snd]. apply Hbody in Eb. unfold same_self in Eb. cbn [fst] in Eb.
  destruct (close (length (conns st.2)) st2.2) as [rc wc] eqn:Ec.
  apply close_inv in Ec as (-> & _ & _).
  cbn. intros H; inversion H; subst; clear H. cbn. now rewrite Eb.
Qed.

Lemma connection_leaves_closed {A} (body : conn_id -> M St A) st r st' :
  _db st.1 = None ->
  (forall c, preserves same_self (body c)) ->
  connection body st = (r, st') ->
  holds_closed st'.
Proof.
  intros Hnone Hbody H. exists (length (conns st.2)).
  rewrite (connection_self body st r st' Hnone Hbody H). split; [reflexivity|].
  apply connection_inv in H. rewrite Hnone in H.
  destruct H as (w1 & st2 & _ & _ & _ & Hw & Hclosed).
  intros cs Hcs.
  destruct (conns st2.2 !! length (conns st.2)) as [cs2|] eqn:E2.
  - rewrite (Hclosed cs2 eq_refl) in Hcs. now inversion Hcs.
  - rewrite Hw in Hcs. unfold close in Hcs. rewrite E2 in Hcs.
    cbn in Hcs. congruence.
Qed.

Lemma cursor_refused c st :
  (forall cs, conns st.2 !! c = Some cs -> conn_open cs = false) ->
  world_op (cursor c) st = (inl ProgrammingError, st).
Proof.
  intros H. unfold world_op, cursor, bind, open_connection.
  destruct (conns st.2 !! c) as [cs|] eqn:E.
  - rewrite (H cs eq_refl). now destruct st.
  - now destruct st.
Qed.

Lemma operations_refused getcwd st :
  holds_closed st ->
  (forall dct check_duplicate,
      import_dict getcwd dct check_duplicate st = (inl ProgrammingError, st))
  /\ (forall kwds,
        search_command_record getcwd kwds st = (inl ProgrammingError, st)).
Proof.
  intros (c & Hc & Hclosed). split.
  - intros dct check_duplicate. rewrite import_dict_unfold.
    unfold connection, bind, get_self. cbn [fst snd]. rewrite Hc.
    unfold import_body, bind. now rewrite (cursor_refused c st Hclosed).
  - intros kwds. rewrite search_command_record_unfold.
    unfold connection, bind, get_self. cbn [fst snd]. rewrite Hc.
    unfold search_body, bind. now rewrite (cursor_refused c st Hclosed).
Qed.

(** X6: an instance serves one operation.  After the first import or search
    of an instance that held no connection, whatever its outcome, the
    instance refers to the connection that operation closed, and every
    further import or search on it raises [ProgrammingError] and changes
    nothing. *)
Theorem instance_serves_one_operation getcwd dct check_duplicate kwds st st1 :
  _db st.1 = None ->
  (import_dict getcwd dct check_duplicate st).2 = st1
  \/ (search_command_record getcwd kwds st).2 = st1 ->
  holds_closed st1
  /\ (forall dct' check_duplicate',
        import_dict getcwd dct' check_duplicate' st1
        = (inl ProgrammingError, st1))
  /\ (forall kwds',
        search_command_record getcwd kwds' st1 = (inl ProgrammingError, st1)).
Proof.
  intros Hnone H.
  assert (holds_closed st1) as Hclosed.
  { destruct H as [H|H].
    - destruct (import_dict getcwd dct check_duplicate st) as [r st'] eqn:E.
      cbn in H. subst st'. rewrite import_dict_unfold in E.
      eapply connection_leaves_closed; [exact Hnone| |exact E].
      intros c. apply same_self_import_body.
    - destruct (search_command_record getcwd kwds st) as [r st'] eqn:E.
      cbn in H. subst st'. rewrite search_command_record_unfold in E.
      eapply connection_leaves_closed; [exact Hnone| |exact E].
      intros c. apply same_self_search_body. }
  split; [exact Hclosed|]. now apply operations_refused.
Qed.

Lemma instance_serves_one_operation_witness :
  let st := new_instance in
  let st1 := (search_command_record "/" search_all st).2 in
  _db st.1 = None
  /\ holds_closed st1
  /\ (forall dct' check_duplicate',
        import_dict "/" dct' check_duplicate' st1 = (inl ProgrammingError, st1))
  /\ (forall kwds',
        search_command_record "/" kwds' st1 = (inl ProgrammingError, st1)).
Proof.
  intros st st1. split; [reflexivity|].
  exact (instance_serves_one_operation "/" record_A true search_all st st1
           eq_refl (or_intror eq_refl)).
Defined.

(** ** What a search leaves behind *)

Lemma search_keeps_committed getcwd kwds st r st' :
  search_command_record getcwd kwds st = (r, st') ->
  (forall path tname,
      committed_rows st'.2 path tname = committed_rows st.2 path tname)
  /\ (forall c, is_Some (conns st.2 !! c) -> conns st'.2 !! c = conns st.2 !! c)
  /\ (is_Some (_db st.1) -> st' = st).
Proof.
  rewrite search_command_record_unfold. intros H. apply connection_inv in H.
  destruct (_db st.1) as [c|] eqn:E.
  - apply search_body_state in H as ->. auto.
  - destruct H as (w1 & st2 & Hconn & _ & Hbody & Hw & _).
    apply search_body_state in Hbody as ->. cbn [snd] in Hw.
    split; [|split].
    + intros path tname. rewrite Hw.
      rewrite (committed_rows_files _ _ (close_files _ w1)).
      now apply connect_inv in Hconn as (_ & Hc & _).
    + intros c Hc. rewrite Hw. unfold connect in Hconn.
      inversion Hconn; subst; clear Hconn.
      apply lookup_lt_is_Some in Hc.
      unfold close. cbn [conns set_conns set_files].
      rewrite list_lookup_middle by reflexivity.
      cbn [snd conns set_conn set_conns].
      rewrite list_lookup_insert_ne by lia.
      now rewrite lookup_app_l.
    + intros [x Hx]. discriminate.
Qed.

(** X7: a search writes nothing, whatever its outcome: every table of every
    committed file has the rows it had, every connection that existed is as
    it was, pending writes included, and an instance that holds a connection
    is left exactly as it was. *)
Theorem search_writes_nothing getcwd kwds st :
  let st' := (search_command_record getcwd kwds st).2 in
  (forall path tname,
      committed_rows st'.2 path tname = committed_rows st.2 path tname)
  /\ (forall c, is_Some (conns st.2 !! c) -> conns st'.2 !! c = conns st.2 !! c)
  /\ (is_Some (_db st.1) -> st' = st).
Proof.
  cbv zeta. destruct (search_command_record getcwd kwds st) as [r st'] eqn:E.
  eapply search_keeps_committed; eauto.
Qed.

(** ** Creating the store *)

Lemma create_tables_schema : create_tables ∅ schema = inr empty_store.
Proof. vm_compute. reflexivity. Qed.

Lemma prepare_rash_info :
  prepare empty_store "rash_info" ["rash_version"; "schema_version"]
    assignable_column
  = inr {| tbl_columns := ["rash_version"; "schema_version"]; tbl_rows := [] |}.
Proof. vm_compute. reflexivity. Qed.

Lemma __init___new version path w :
  files w !! path = None ->
  exists w',
    __init__ version path w
    = (inr {| dbpath := path; _db := None; db := None |}, w')
    /\ files w' = <[path := initial_store version]> (files w)
    /\ conns w' = conns w ++ [{| conn_path := path; conn_open := false;
                                 conn_txn := None |}]
    /\ textfiles w' = textfiles w /\ handles w' = handles w
    /\ stdout w' = stdout w.
Proof.
  intros Hnone. unfold __init__.
  rewrite bool_decide_eq_false_2 by (rewrite Hnone; intros [x Hx]; discriminate).
  unfold _init_db, with__get_db, finally, bind, get_self, world_op, connect.
  cbn [fst snd dbpath]. rewrite Hnone.
  unfold executescript_schema, bind, commit, bind, open_connection.
  cbn [conns set_conns set_files files].
  rewrite list_lookup_middle by reflexivity. cbn [conn_open conn_txn conn_path].
  cbn [conns set_conns set_files files].
  rewrite list_lookup_middle by reflexivity. cbn [conn_open conn_txn conn_path].
  unfold view. cbn [conn_open conn_txn conn_path conns set_conns set_files files].
  rewrite lookup_insert_eq. cbn [default from_option id].
  rewrite create_tables_schema. cbn [fst snd].
  unfold execute_insert, bind, open_connection.
  cbn [conns set_conns set_files files].
  rewrite list_lookup_middle by reflexivity. cbn [conn_open conn_txn conn_path].
  unfold view. cbn [conn_open conn_txn conn_path conns set_conns set_files files].
  rewrite lookup_insert_eq. cbn [default from_option id].
  rewrite prepare_rash_info.
  cbn [bind_params bind_param]. cbn [fst snd set_conn conns set_conns set_files files].
  rewrite list_lookup_insert_eq by (rewrite length_app; cbn; lia).
  cbn [conn_open conn_txn conn_path].
  unfold close. cbn [fst snd set_conn conns set_conns set_files files].
  rewrite list_lookup_insert_eq
    by (rewrite length_insert, length_app; cbn; lia).
  cbn [fst snd set_conn conns set_conns set_files files conn_path].
  eexists. split; [reflexivity|].
  cbn [files conns textfiles handles stdout set_conns set_files].
  split; [|split; [|auto]].
  - rewrite !insert_insert_eq. reflexivity.
  - cbn [conns set_conn set_conns set_files].
    rewrite !list_insert_insert_eq.
    rewrite insert_app_r_alt by lia. now rewrite Nat.sub_diag.
Qed.



(** X9: constructing an instance on a path a second time changes nothing:
    the store keeps the rows, and the version, it was created with. *)
Theorem init_twice_is_init_once version version' path w :
  let w' := (__init__ version path w).2 in
  __init__ version' path w'
  = (inr {| dbpath := path; _db := None; db := None |}, w').
Proof.
  cbv zeta. destruct (files w !! path) as [s|] eqn:E.
  - assert (__init__ version path w
            = (inr {| dbpath := path; _db := None; db := None |}, w)) as ->.
    { unfold __init__. rewrite bool_decide_eq_true_2; [reflexivity|].
      rewrite E. eauto. }
    cbn [snd]. unfold __init__. rewrite bool_decide_eq_true_2; [reflexivity|].
    rewrite E. eauto.
  - destruct (__init___new version path w E) as (w' & -> & Hf & _).
    cbn [snd]. unfold __init__. rewrite bool_decide_eq_true_2; [reflexivity|].
    rewrite Hf, lookup_insert_eq. eauto.
Qed.

(** ** Tables and columns stay *)

Lemma has_tables_initial_store version : has_tables (initial_store version).
Proof.
  intros t Ht. unfold schema in Ht.
  repeat (apply elem_of_cons in Ht as [->|Ht]);
    [eexists; split; [vm_compute; reflexivity|reflexivity]..|inversion Ht].
Qed.













(** ** A search on a store with the schema *)












(** ** An imported record, searched for *)








(** ** Ids of a table *)

Lemma next_rowid_above rows r : r ∈ rows -> row_id r < next_rowid rows.
Proof.
  unfold next_rowid. induction rows as [|x rows IH]; intros H; [inversion H|].
  rewrite fmap_cons. cbn [foldr].
  apply elem_of_cons in H as [->|H]; [lia|]. specialize (IH H). lia.
Qed.

Lemma distinct_ids_snoc rows r :
  distinct_ids rows -> row_id r = next_rowid rows -> distinct_ids (rows ++ [r]).
Proof.
  unfold distinct_ids. intros Hd Hr. rewrite fmap_app. apply NoDup_app.
  split; [exact Hd|]. split; [|apply NoDup_singleton].
  intros i Hi Hi'. apply list_elem_of_singleton in Hi'. subst i.
  apply list_elem_of_fmap in Hi as (x & Hx & Hin).
  apply next_rowid_above in Hin. lia.
Qed.

(** The two ways through the resolver, on the rows of its table. *)
Lemma _get_maybe_new_id_step db tname columns st i st' :
  _get_maybe_new_id db tname columns st = (inr i, st') ->
  exists values,
    bind_params columns.*2 = inr values
    /\ ((st' = st
         /\ exists r, r ∈ table_rows (visible st.2 db) tname /\ row_id r = i
                      /\ row_matches columns.*1 values r = true)
        \/ (exists r,
              table_rows (visible st'.2 db) tname
              = table_rows (visible st.2 db) tname ++ [r]
              /\ row_id r = i
              /\ i = next_rowid (table_rows (visible st.2 db) tname)
              /\ forall x, x ∈ table_rows (visible st.2 db) tname ->
                   row_matches columns.*1 values x = false)).
Proof.
  intros H.
  apply _get_maybe_new_id_inv in H
    as (cs & t & values & H1 & H2 & H3 & H4 & [(ids & H5 & ->)|(H5 & H6 & -> & ->)]).
  - exists values. split; [exact H4|]. left. split; [reflexivity|].
    destruct (select_id_elem t columns.*1 values i) as (r & Hr & Hi & Hm).
    { rewrite H5. left. }
    exists r. rewrite (visible_view _ _ _ H1), (table_rows_prepare _ _ _ _ _ H3).
    auto.
  - exists values. split; [exact H4|]. right.
    exists (new_row t columns.*1 values). cbn [fst snd].
    rewrite (with_txn_visible _ _ _ _ H1), table_rows_insert.
    rewrite (visible_view _ _ _ H1), (table_rows_prepare _ _ _ _ _ H3).
    split; [reflexivity|]. split; [reflexivity|]. split; [reflexivity|].
    intros x Hx. eapply select_id_nil; eauto.
Qed.

Lemma _get_maybe_new_id_distinct_ids db tname columns st i st' :
  _get_maybe_new_id db tname columns st = (inr i, st') ->
  distinct_ids (table_rows (visible st.2 db) tname) ->
  distinct_ids (table_rows (visible st'.2 db) tname).
Proof.
  intros H Hd.
  apply _get_maybe_new_id_step in H
    as (values & _ & [(-> & _)|(r & -> & Hi & Hn & _)]); [exact Hd|].
  apply distinct_ids_snoc; [exact Hd|congruence].
Qed.

(** X12: the resolver keeps the ids of its table distinct, and two keys
    that differ in a value never get the same id: together with the
    resolver's idempotence, an id stands for exactly one key. *)
Theorem distinct_keys_get_distinct_ids db tname columns1 columns2
    st i1 st1 i2 st2 :
  NoDup columns1.*1 -> columns2.*1 = columns1.*1 ->
  (forall v, v ∈ columns1.*2 ++ columns2.*2 -> v <> PNone) ->
  bind_params columns1.*2 <> bind_params columns2.*2 ->
  distinct_ids (table_rows (visible st.2 db) tname) ->
  _get_maybe_new_id db tname columns1 st = (inr i1, st1) ->
  _get_maybe_new_id db tname columns2 st1 = (inr i2, st2) ->
  i1 <> i2 /\ distinct_ids (table_rows (visible st2.2 db) tname).
Proof.
  intros Hnd Hcols Hnn Hne Hd H1 H2.
  pose proof (_get_maybe_new_id_distinct_ids _ _ _ _ _ _ H1 Hd) as Hd1.
  pose proof (_get_maybe_new_id_distinct_ids _ _ _ _ _ _ H2 Hd1) as Hd2.
  split; [|exact Hd2].
  pose proof (extends__get_maybe_new_id _ _ _ _ _ _ H2) as Hext.
  apply _get_maybe_new_id_keys in H1 as [_ (r1 & v1 & R1 & I1 & B1 & K1)];
    [|exact Hnd|intros v Hv; apply Hnn, elem_of_app; now left].
  apply _get_maybe_new_id_keys in H2 as [_ (r2 & v2 & R2 & I2 & B2 & K2)];
    [|now rewrite Hcols|intros v Hv; apply Hnn, elem_of_app; now right].
  intros Heq. apply Hne. rewrite B1, B2. f_equal.
  assert (r1 = r2) as ->.
  { eapply (NoDup_fmap_eq row_id); [exact Hd2| |exact R2|congruence].
    eapply extends_elem; eauto. }
  rewrite <- K1, <- K2. now rewrite Hcols.
Qed.

Lemma distinct_keys_get_distinct_ids_witness :
  let run1 := _get_maybe_new_id 0%nat "terminal_list"
                [("terminal", PStr "xterm")] terminal_store in
  let run2 := _get_maybe_new_id 0%nat "terminal_list"
                [("terminal", PStr "tmux")] run1.2 in
  run1 = (inr 1, run1.2) /\ run2 = (inr 2, run2.2)
  /\ 1 <> 2
  /\ distinct_ids (table_rows (visible run2.2.2 0%nat) "terminal_list").
Proof.
  intros run1 run2.
  assert (run1 = (inr 1, run1.2)) as H1 by (vm_compute; reflexivity).
  assert (run2 = (inr 2, run2.2)) as H2 by (vm_compute; reflexivity).
  split; [exact H1|]. split; [exact H2|].
  apply (distinct_keys_get_distinct_ids 0%nat "terminal_list"
           [("terminal", PStr "xterm")] [("terminal", PStr "tmux")]
           terminal_store 1 run1.2 2 run2.2);
    [compute_done|reflexivity| |discriminate|compute_done|exact H1|exact H2].
  intros v Hv. cbn in Hv.
  repeat (apply elem_of_cons in Hv as [->|Hv]); [discriminate..|inversion Hv].
Defined.

Lemma row_matches_null columns values r :
  length values = length columns -> VNull ∈ values ->
  row_matches columns values r = false.
Proof.
  unfold row_matches. revert values.
  induction columns as [|c columns IH]; intros [|v values] Hlen Hin;
    try discriminate; [inversion Hin|].
  cbn [zip zip_with forallb fst snd].
  apply elem_of_cons in Hin as [<-|Hin].
  - destruct (column_value r c); reflexivity.
  - rewrite (IH values); [apply andb_false_r|now inversion Hlen|exact Hin].
Qed.

Lemma bind_params_none vs values :
  bind_params vs = inr values -> PNone ∈ vs -> VNull ∈ values.
Proof.
  revert values. induction vs as [|v vs IH]; intros values H Hin;
    [inversion Hin|].
  apply bind_params_cons in H as (x & xs & H1 & H2 & ->).
  apply elem_of_cons in Hin as [<-|Hin].
  - cbn in H1. inversion H1. left.
  - right. eauto.
Qed.

(** X13: a key with a [None] value is never found, since no row equals
    NULL in a column: the resolver adds a row on every call, so a second
    call with the same key returns a greater id.  The environment loop
    skips such pairs before it calls the resolver. *)
Theorem none_key_is_never_found db tname columns st i st' :
  PNone ∈ columns.*2 ->
  _get_maybe_new_id db tname columns st = (inr i, st') ->
  (exists r, table_rows (visible st'.2 db) tname
             = table_rows (visible st.2 db) tname ++ [r]
             /\ row_id r = i)
  /\ forall i' st'',
       _get_maybe_new_id db tname columns st' = (inr i', st'') -> i < i'.
Proof.
  intros Hnone H.
  assert (forall s j s',
            _get_maybe_new_id db tname columns s = (inr j, s') ->
            exists r, table_rows (visible s'.2 db) tname
                      = table_rows (visible s.2 db) tname ++ [r]
                      /\ row_id r = j
                      /\ j = next_rowid (table_rows (visible s.2 db) tname))
    as Hadds.
  { intros s j s' Hs.
    apply _get_maybe_new_id_step in Hs
      as (values & Hb & [(_ & r & _ & _ & Hm)|(r & Hr & Hj & Hn & _)]);
      [|eauto].
    rewrite row_matches_null in Hm; [discriminate| |].
    - rewrite (bind_params_length _ _ Hb). now rewrite !length_fmap.
    - eapply bind_params_none; eauto. }
  destruct (Hadds _ _ _ H) as (r & Hr & Hi & _). split; [eauto|].
  intros i' st'' H'. destruct (Hadds _ _ _ H') as (r' & _ & _ & ->).
  rewrite <- Hi. apply next_rowid_above. rewrite Hr.
  apply elem_of_app. right. left.
Qed.

Lemma none_key_is_never_found_witness :
  let run1 := _get_maybe_new_id 0%nat "terminal_list"
                [("terminal", PNone)] terminal_store in
  run1 = (inr 1, run1.2)
  /\ (exists r, table_rows (visible run1.2.2 0%nat) "terminal_list"
                = table_rows (visible terminal_store.2 0%nat) "terminal_list"
                    ++ [r]
                /\ row_id r = 1)
  /\ forall i' st'',
       _get_maybe_new_id 0%nat "terminal_list" [("terminal", PNone)] run1.2
       = (inr i', st'') -> 1 < i'.
Proof.
  intros run1.
  assert (run1 = (inr 1, run1.2)) as H1 by (vm_compute; reflexivity).
  split; [exact H1|].
  apply (none_key_is_never_found 0%nat "terminal_list" [("terminal", PNone)]
           terminal_store 1 run1.2); [left|exact H1].
Defined.

(** ** Export to a sink *)

(** X14: the dispatch table and the list of supported formats agree: a
    format has an exporter exactly when it is in [SUPPORTED_FORMATS], and
    the lookup changes nothing. *)
Theorem exporters_are_the_supported_formats export_bash format w :
  get_exporter export_bash format w
  = if bool_decide (format ∈ SUPPORTED_FORMATS)
    then (inr export_bash, w)
    else (inl (ValueError (unsupported_message format)), w).
Proof.
  destruct (bool_decide (format ∈ SUPPORTED_FORMATS)) eqn:E.
  - apply bool_decide_eq_true in E. unfold SUPPORTED_FORMATS in E.
    apply list_elem_of_singleton in E. subst. reflexivity.
  - apply bool_decide_eq_false in E. now apply get_exporter_unsupported.
Qed.

(** X15: for the bash format [export_run] returns what the exporter
    returns, an exception included, and it closes the output file it opened
    after the exporter, whatever the outcome; with the sink [-] it opens and
    closes nothing, and the exporter writes to the standard output. *)
Theorem export_run_closes_its_file version db_path export_bash output w
    self w1 r w2 :
  __init__ version db_path w = (inr self, w1) ->
  export_bash self (export_sink output w1) (export_start output w1) = (r, w2) ->
  (forall h path, handles (export_start output w1) !! h = Some path ->
                  handles w2 !! h = Some path) ->
  exists w3,
    export_run version db_path export_bash "bash" output w = (r, w3)
    /\ files w3 = files w2 /\ textfiles w3 = textfiles w2
    /\ stdout w3 = stdout w2
    /\ handles w3
       = if String.eqb output "-" then handles w2
         else <[length (handles w1) := (output, false)]> (handles w2).
Proof.
  intros Hinit Hrun Hkeep. unfold export_run, bind. rewrite Hinit.
  unfold export_sink, export_start in Hrun, Hkeep.
  destruct (String.eqb output "-") eqn:E; cbn [negb].
  - unfold ret at 1. unfold finally, bind, get_exporter. cbn [List.find exporters fst snd].
    cbn. rewrite Hrun. cbn. eauto 10.
  - unfold open_w at 1. unfold finally, bind, get_exporter.
    cbn [List.find exporters fst snd]. cbn.
    unfold open_w in Hrun, Hkeep. cbn [snd] in Hrun, Hkeep. rewrite Hrun.
    unfold close_file.
    rewrite (Hkeep (length (handles w1)) (output, true))
      by (cbn; apply list_lookup_middle; reflexivity).
    cbn. eauto 10.
Qed.

Lemma export_run_closes_its_file_witness :
  let w1 := (__init__ "0.1" "rash.db" world_with_output).2 in
  let res := export_run "0.1" "rash.db" failing_exporter "bash" "out.txt"
               world_with_output in
  res.1 = inl OverflowError
  /\ textfiles res.2 !! "out.txt" = Some ["#100"]
  /\ handles res.2 = [("out.txt", false)]
  /\ exists w3,
       res = (inl OverflowError, w3)
       /\ files w3 = files res.2 /\ textfiles w3 = textfiles res.2
       /\ stdout w3 = stdout res.2
       /\ handles w3 = handles res.2.
Proof.
  intros w1 res.
  split; [vm_compute; reflexivity|]. split; [vm_compute; reflexivity|].
  split; [vm_compute; reflexivity|].
  destruct (export_run_closes_its_file "0.1" "rash.db" failing_exporter
              "out.txt" world_with_output
              {| dbpath := "rash.db"; _db := None; db := None |} w1
              (inl OverflowError)
              (failing_exporter {| dbpath := "rash.db"; _db := None; db := None |}
                 (export_sink "out.txt" w1) (export_start "out.txt" w1)).2)
    as (w3 & H1 & H2 & H3 & H4 & H5).
  - vm_compute. reflexivity.
  - vm_compute. reflexivity.
  - intros h path Hh. vm_compute in Hh |- *. exact Hh.
  - exists w3. split; [exact H1|].
    assert (res = (inl OverflowError, w3)) as Hres by exact H1.
    rewrite Hres. cbn [snd]. auto.
Defined.

(** ** The recorder *)

Lemma get_environ_items (E d : gmap string string) keys k :
  fold_left (fun d kv => match kv.2 with
                         | Some v => <[kv.1 := v]> d
                         | None => d
                         end)
    ((fun k => (k, E !! k)) <$> keys) d !! k
  = if bool_decide (k ∈ keys)
    then match E !! k with Some v => Some v | None => d !! k end
    else d !! k.
Proof.
  revert d. induction keys as [|k0 keys IH]; intros d; [reflexivity|].
  rewrite fmap_cons. cbn [fold_left fst snd]. rewrite IH.
  destruct (decide (k = k0)) as [->|Hne].
  - rewrite (bool_decide_eq_true_2 (k0 ∈ k0 :: keys)) by left.
    destruct (E !! k0) as [v|] eqn:Ek.
    + rewrite lookup_insert_eq. now destruct (bool_decide (k0 ∈ keys)).
    + now destruct (bool_decide (k0 ∈ keys)).
  - assert (bool_decide (k ∈ k0 :: keys) = bool_decide (k ∈ keys)) as ->.
    { apply bool_decide_ext. rewrite elem_of_cons. tauto. }
    destruct (E !! k0) as [v|] eqn:Ek; [|reflexivity].
    now rewrite lookup_insert_ne by congruence.
Qed.

Lemma lookup_if_insert (b : bool) k0 v (m : gmap string string) k :
  (if b then <[k0 := v]> m else m) !! k
  = if b && String.eqb k k0 then Some v else m !! k.
Proof.
  destruct b; [|reflexivity]. cbn [andb].
  destruct (String.eqb_spec k k0) as [->|Hne].
  - now rewrite lookup_insert_eq.
  - now rewrite lookup_insert_ne by congruence.
Qed.

Lemma lookup_if_if_insert (b f : bool) k0 v (m : gmap string string) k :
  (if b then (if f then m else <[k0 := v]> m) else m) !! k
  = if b && negb f && String.eqb k k0 then Some v else m !! k.
Proof.
  destruct b, f; try reflexivity. cbn [andb negb].
  destruct (String.eqb_spec k k0) as [->|Hne].
  - now rewrite lookup_insert_eq.
  - now rewrite lookup_insert_ne by congruence.
Qed.

Lemma get_environ_lookup E ttyname node keys k :
  Recorder.get_environ E ttyname node keys !! k
  = if bool_decide (k ∈ keys) then
      if String.eqb k "HOST" then
        Some (if Recorder.falsy (E !! "HOST") then node
              else default "" (E !! "HOST"))
      else if String.eqb k "TTY" then
        if Recorder.falsy (E !! "TTY")
        then (if Recorder.falsy (Recorder.get_tty ttyname) then E !! "TTY"
              else Recorder.get_tty ttyname)
        else E !! "TTY"
      else E !! k
    else None.
Proof.
  unfold Recorder.get_environ. cbv zeta.
  rewrite lookup_if_if_insert, !lookup_if_insert.
  rewrite !get_environ_items, !lookup_empty.
  change (String.eqb "TTY" "HOST") with false. rewrite andb_false_r.
  generalize (Recorder.get_tty ttyname). intros tty0.
  destruct (String.eqb_spec k "HOST") as [->|Hh].
  - change (String.eqb "HOST" "TTY") with false. rewrite andb_false_r.
    destruct (bool_decide ("HOST" ∈ keys)); cbn [andb]; [|reflexivity].
    destruct (E !! "HOST") as [h|]; cbn; [|reflexivity].
    now destruct (String.eqb h "").
  - rewrite andb_false_r.
    destruct (String.eqb_spec k "TTY") as [->|Ht].
    + destruct (bool_decide ("TTY" ∈ keys)); cbn [andb]; [|reflexivity].
      destruct (E !! "TTY") as [t|]; cbn.
      * destruct (String.eqb t ""); cbn; [|reflexivity].
        destruct tty0 as [tty|]; cbn; [|reflexivity].
        now destruct (String.eqb tty "").
      * destruct tty0 as [tty|]; cbn; [|reflexivity].
        now destruct (String.eqb tty "").
    + rewrite andb_false_r.
      destruct (bool_decide (k ∈ keys)); [|reflexivity].
      now destruct (E !! k).
Qed.
